(** * Metadata filtering, title parsing and playback detection of web-scrobbler

    A shallow embedding of
    - [src/core/content/filter.js]   (the [MetadataFilter] constructor, the
      predefined filter functions and the regex rule tables), and
    - [src/connectors/v2/youtube.js] (the off-screen predicates, the mutation
      observer and [processYoutubeVideoTitle]),
    together with the properties of the specification that concern them.

    JavaScript strings are sequences of UTF-16 code units, modelled as
    [list N].  Values that can reach the functions are modelled by [jsval];
    a call either returns or throws ([res]). *)

From stdpp Require Import base numbers list strings gmap pretty.
From Stdlib Require Import Ascii Qcanon.

Set Default Proof Using "Type".
Set Warnings "-register-all".
Local Open Scope N_scope.
Local Open Scope list_scope.

(** ** Strings and values *)

Abbreviation jsstring := (list N).

(** A string literal of the source, as code units. *)
Definition str (s : string) : jsstring :=
  map N_of_ascii (String.list_ascii_of_string s).

(** The values a metadata field or a raw title can hold. Numbers are
    restricted to integers and NaN, which is all the truthiness and strict
    equality tests of the code can tell apart from strings. *)
Inductive jsval : Type :=
  | JUndefined
  | JNull
  | JBool (b : bool)
  | JNum (n : Z)
  | JNaN
  | JStr (s : jsstring).

Inductive exn : Type :=
  | TypeError
  | Thrown (v : jsval).

Inductive res (A : Type) : Type :=
  | Ok (a : A)
  | Throw (e : exn).
Arguments Ok {A} a.
Arguments Throw {A} e.

Global Instance N_list_eq_dec : EqDecision jsstring := _.
Global Instance jsval_eq_dec : EqDecision jsval.
Proof. solve_decision. Defined.

(** [ToBoolean]: the falsy values are undefined, null, false, 0, NaN and
    the empty string. *)
Definition toBoolean (v : jsval) : bool :=
  match v with
  | JUndefined | JNull | JNaN => false
  | JBool b => b
  | JNum n => negb (Z.eqb n 0)
  | JStr s => match s with [] => false | _ => true end
  end.

(** [===] on the modelled values: NaN differs from itself. *)
Definition strict_eq (a b : jsval) : bool :=
  match a, b with
  | JNaN, _ | _, JNaN => false
  | _, _ => bool_decide (a = b)
  end.

(** ** White space and [String.prototype.trim] *)

(** ECMAScript WhiteSpace and LineTerminator code points; [trim] and the
    regex class [\s] use the same set. *)
Definition is_line_terminator (c : N) : bool :=
  (c =? 10) || (c =? 13) || (c =? 0x2028) || (c =? 0x2029).

Definition is_space (c : N) : bool :=
  (c =? 9) || (c =? 11) || (c =? 12) || (c =? 32) || (c =? 160)
  || (c =? 0x1680) || ((0x2000 <=? c) && (c <=? 0x200A))
  || (c =? 0x202F) || (c =? 0x205F) || (c =? 0x3000) || (c =? 0xFEFF)
  || is_line_terminator c.

Fixpoint trim_start (s : jsstring) : jsstring :=
  match s with
  | [] => []
  | c :: s' => if is_space c then trim_start s' else s
  end.

Fixpoint trim_end (s : jsstring) : jsstring :=
  match s with
  | [] => []
  | c :: s' =>
      match trim_end s' with
      | [] => if is_space c then [] else [c]
      | t => c :: t
      end
  end.

Definition string_trim (s : jsstring) : jsstring := trim_end (trim_start s).

(** ** Regular expressions

    The rule tables of [filter.js] and the two patterns of [youtube.js] are
    regex literals.  They are kept as syntax trees and run by a backtracking
    matcher that follows the ECMAScript pattern semantics (continuation
    passing, leftmost start, alternatives and quantifiers tried in priority
    order). *)

(** Members of a character class. *)
Inductive citem : Type :=
  | IChar (c : N)
  | IRange (lo hi : N)
  | ISpace                              (* \s *)
  | IDigit.                             (* \d *)

Inductive cset : Type :=
  | Dot                                 (* .  : anything but a line terminator *)
  | One (i : citem)
  | NotSpace                            (* \S *)
  | Class (negated : bool) (items : list citem).

Inductive regex : Type :=
  | Empty
  | Atom (a : cset)
  | Seq (r1 r2 : regex)
  | Alt (r1 r2 : regex)
  | Rep (r : regex) (min : nat) (max : option nat) (greedy : bool)
  | Group (i : nat) (r : regex)         (* the i-th capturing parenthesis *)
  | Bol                                 (* ^ *)
  | Eol.                                (* $ *)

(** Canonicalize of the [i] flag, on the ASCII letters (the patterns of the
    source contain no other letters). *)
Definition canon (c : N) : N :=
  if (97 <=? c) && (c <=? 122) then c - 32 else c.
Definition lower (c : N) : N :=
  if (65 <=? c) && (c <=? 90) then c + 32 else c.

Definition citem_match (icase : bool) (i : citem) (c : N) : bool :=
  match i with
  | IChar a => if icase then canon a =? canon c else a =? c
  | IRange lo hi =>
      let within x := (lo <=? x) && (x <=? hi) in
      within c || (icase && (within (canon c) || within (lower c)))
  | ISpace => is_space c
  | IDigit => (48 <=? c) && (c <=? 57)
  end.

Definition cset_match (icase : bool) (a : cset) (c : N) : bool :=
  match a with
  | Dot => negb (is_line_terminator c)
  | One i => citem_match icase i c
  | NotSpace => negb (is_space c)
  | Class negated items => xorb negated (existsb (fun i => citem_match icase i c) items)
  end.

(** The state of a match: index of the next character, the characters from
    there on, and the captures made so far. *)
Record mstate : Type := MState {
  m_pos : nat;
  m_rest : jsstring;
  m_caps : gmap nat jsstring
}.

Definition cont := mstate -> option mstate.
Definition matcher := mstate -> cont -> option mstate.

Definition set_cap (i : nat) (s : jsstring) (x : mstate) : mstate :=
  MState (m_pos x) (m_rest x) (<[i := s]> (m_caps x)).

Definition clear_caps (parens : list nat) (x : mstate) : mstate :=
  MState (m_pos x) (m_rest x) (foldr delete (m_caps x) parens).

(** The capturing parentheses inside a pattern. *)
Fixpoint parens_of (r : regex) : list nat :=
  match r with
  | Seq r1 r2 | Alt r1 r2 => parens_of r1 ++ parens_of r2
  | Rep r1 _ _ _ => parens_of r1
  | Group i r1 => i :: parens_of r1
  | _ => []
  end.

(** RepeatMatcher.  An iteration that matched the empty string once the
    minimum is reached is rejected, so every further iteration consumes a
    character and [fuel] = min + remaining length + 1 is never exhausted. *)
Fixpoint repeat_matcher (m : matcher) (parens : list nat) (fuel : nat)
    (min : nat) (max : option nat) (greedy : bool) (x : mstate) (c : cont)
    : option mstate :=
  match max, fuel with
  | Some O, _ => c x
  | _, O => None
  | _, S fuel' =>
      let d : cont := fun y =>
        if (min =? 0)%nat && (m_pos y =? m_pos x)%nat then None
        else repeat_matcher m parens fuel' (pred min) (pred <$> max) greedy y c in
      let xr := clear_caps parens x in
      if negb (min =? 0)%nat then m xr d
      else if negb greedy then
        match c x with
        | Some z => Some z
        | None => m xr d
        end
      else
        match m xr d with
        | Some z => Some z
        | None => c x
        end
  end.

Fixpoint rmatch (icase : bool) (r : regex) (x : mstate) (c : cont)
    : option mstate :=
  match r with
  | Empty => c x
  | Atom a =>
      match m_rest x with
      | ch :: rest =>
          if cset_match icase a ch
          then c (MState (S (m_pos x)) rest (m_caps x))
          else None
      | [] => None
      end
  | Seq r1 r2 => rmatch icase r1 x (fun y => rmatch icase r2 y c)
  | Alt r1 r2 =>
      match rmatch icase r1 x c with
      | Some z => Some z
      | None => rmatch icase r2 x c
      end
  | Rep r1 min max greedy =>
      repeat_matcher (rmatch icase r1) (parens_of r1)
        (S (min + length (m_rest x))) min max greedy x c
  | Group i r1 =>
      rmatch icase r1 x
        (fun y => c (set_cap i (take (m_pos y - m_pos x) (m_rest x)) y))
  | Bol => if (m_pos x =? 0)%nat then c x else None
  | Eol => match m_rest x with [] => c x | _ => None end
  end.

(** A regex literal with its flags. *)
Record regexp : Type := RegExp {
  re_pattern : regex;
  re_ignoreCase : bool;
  re_global : bool
}.

(** The first index from [pos] on at which the pattern matches, with the
    end state of that match. *)
Fixpoint search (re : regexp) (pos : nat) (rest : jsstring)
    : option (nat * mstate) :=
  match rmatch (re_ignoreCase re) (re_pattern re) (MState pos rest ∅) Some with
  | Some y => Some (pos, y)
  | None =>
      match rest with
      | [] => None
      | _ :: rest' => search re (S pos) rest'
      end
  end.

(** Replacement text: literal pieces and [$n] references. *)
Inductive piece : Type :=
  | PLit (s : jsstring)
  | PGroup (n : nat).

Definition expand (target : list piece) (caps : gmap nat jsstring) : jsstring :=
  flat_map (fun p => match p with
                     | PLit s => s
                     | PGroup n => default [] (caps !! n)
                     end) target.

(** Replacing every match (flag [g]): after an empty match the scan moves
    one character on.  Each round consumes a character or ends the scan, so
    [fuel] = length + 1 is never exhausted. *)
Fixpoint replace_all (fuel : nat) (re : regexp) (target : list piece)
    (pos : nat) (rest : jsstring) : jsstring :=
  match fuel with
  | O => rest
  | S fuel' =>
      match search re pos rest with
      | None => rest
      | Some (i, y) =>
          take (i - pos) rest ++ expand target (m_caps y) ++
            (if (m_pos y =? i)%nat then
               match m_rest y with
               | [] => []
               | ch :: rest' => ch :: replace_all fuel' re target (S i) rest'
               end
             else replace_all fuel' re target (m_pos y) (m_rest y))
      end
  end.

(** [s.replace(re, target)] *)
Definition string_replace (s : jsstring) (re : regexp) (target : list piece)
    : jsstring :=
  if re_global re then replace_all (S (length s)) re target 0 s
  else
    match search re 0 s with
    | None => s
    | Some (i, y) => take i s ++ expand target (m_caps y) ++ m_rest y
    end.

(** [s.match(re)] for a pattern without the [g] flag: the captures of the
    first match (index 0 is the whole match), or nothing. *)
Definition string_match (s : jsstring) (re : regexp)
    : option (gmap nat jsstring) :=
  match search re 0 s with
  | None => None
  | Some (i, y) => Some (<[O := take (m_pos y - i) (drop i s)]> (m_caps y))
  end.

(** [s.replace(re, f)] with a replacer function [f], which is handed the
    captures of each match (index 0 is the matched text) and returns the
    text to put in its place. *)
Fixpoint replace_all_fn (fuel : nat) (re : regexp)
    (f : gmap nat jsstring -> jsstring) (pos : nat) (rest : jsstring)
    : jsstring :=
  match fuel with
  | O => rest
  | S fuel' =>
      match search re pos rest with
      | None => rest
      | Some (i, y) =>
          take (i - pos) rest
            ++ f (<[O := take (m_pos y - i) (drop (i - pos) rest)]> (m_caps y))
            ++ (if (m_pos y =? i)%nat then
                  match m_rest y with
                  | [] => []
                  | ch :: rest' => ch :: replace_all_fn fuel' re f (S i) rest'
                  end
                else replace_all_fn fuel' re f (m_pos y) (m_rest y))
      end
  end.

Definition string_replace_fn (s : jsstring) (re : regexp)
    (f : gmap nat jsstring -> jsstring) : jsstring :=
  if re_global re then replace_all_fn (S (length s)) re f 0 s
  else
    match search re 0 s with
    | None => s
    | Some (i, y) =>
        take i s ++ f (<[O := take (m_pos y - i) (drop i s)]> (m_caps y))
          ++ m_rest y
    end.

(** *** Numbers from digit strings *)

(** The mathematical value of a string of decimal digits. *)
Definition decimal_value (ds : jsstring) : N :=
  foldl (fun acc c => 10 * acc + (c - 48)) 0 ds.

(** The Number for a non-negative integer: the nearest double, ties to
    even; [None] is Infinity. *)
Definition round_double (n : N) : option N :=
  if N.size n <=? 53 then Some n
  else
    let e := N.size n - 53 in
    let q := N.shiftr n e in
    let r := N.land n (N.ones e) in
    let half := N.shiftl 1 (e - 1) in
    let q' := if (half <? r) || ((r =? half) && N.odd q) then q + 1 else q in
    let d := N.shiftl q' e in
    if 1024 <? N.size d then None else Some d.

(** [String.fromCharCode(dec)] for a string [dec] of decimal digits:
    ToNumber, then ToUint16. *)
Definition fromCharCode (dec : jsstring) : jsstring :=
  match round_double (decimal_value dec) with
  | Some d => [d mod 65536]
  | None => [0]
  end.

(** *** Writing patterns *)

Definition chr (a : ascii) : regex := Atom (One (IChar (N_of_ascii a))).
Arguments chr a%_char.
Definition cls (items : list citem) : regex := Atom (Class false items).
Definition ncls (items : list citem) : regex := Atom (Class true items).
Definition ic (a : ascii) : citem := IChar (N_of_ascii a).
Arguments ic a%_char.
Definition dquote : N := 34.
Definition squote : N := 39.
Definition qchr (q : N) : regex := Atom (One (IChar q)).
Definition ws : regex := Atom (One ISpace).           (* \s *)
Definition digit : regex := Atom (One IDigit).        (* \d *)
Definition dot : regex := Atom Dot.
Definition star (r : regex) : regex := Rep r 0 None true.         (* r*  *)
Definition plus (r : regex) : regex := Rep r 1 None true.         (* r+  *)
Definition opt (r : regex) : regex := Rep r 0 (Some 1%nat) true.  (* r?  *)
Definition plus_lazy (r : regex) : regex := Rep r 1 None false.   (* r+? *)
Definition times (n : nat) (r : regex) : regex := Rep r n (Some n) true.

(** A sequence of terms, nested to the left as the grammar does. *)
Definition cat (rs : list regex) : regex :=
  match rs with
  | [] => Empty
  | r :: rs' => foldl Seq r rs'
  end.

(** Alternatives [a|b|c]. *)
Fixpoint alt (rs : list regex) : regex :=
  match rs with
  | [] => Empty
  | [r] => r
  | r :: rs' => Alt r (alt rs')
  end.

(** A run of literal characters. *)
Definition lit (s : string) : regex := cat (chr <$> String.list_ascii_of_string s).

(** ** Filter functions and filter sets *)

(** A filter function takes the field value and returns or throws. *)
Definition filterfn := jsval -> res jsval.

(** What a property of a filter set (or an element of an array found there)
    can be: a function, an array, a primitive value or some other object. *)
Inductive entry : Type :=
  | EFun (f : filterfn)
  | EArr (l : list entry)
  | EVal (v : jsval)
  | EObj.

(** [filterSet[field]]: an absent property reads as undefined. *)
Definition get_prop (filterSet : gmap string entry) (field : string) : entry :=
  default (EVal JUndefined) (filterSet !! field).

(** Calls of filter functions are observable: a computation threads the log
    of the arguments the filter functions were invoked with. *)
Definition log := list jsval.
Definition Eff (A : Type) : Type := log -> log * res A.

Definition raise {A} (e : exn) : Eff A := fun l => (l, Throw e).
Global Instance Eff_ret : MRet Eff := fun A a l => (l, Ok a).
Global Instance Eff_bind : MBind Eff := fun A B k m l =>
  match m l with
  | (l', Ok a) => k a l'
  | (l', Throw e) => (l', Throw e)
  end.
Definition run {A} (m : Eff A) : log * res A := m [].

(** [filter(text)] for an array element [filter]: calling something that is
    not a function is a TypeError and invokes nothing. *)
Definition invoke (filter : entry) (text : jsval) : Eff jsval :=
  match filter with
  | EFun f => fun l => (l ++ [text], f text)
  | _ => raise TypeError
  end.

Module MetadataFilter.

(** [filters.forEach(filter => { text = filter(text); })] *)
Fixpoint forEach (filters : list entry) (text : jsval) : Eff jsval :=
  match filters with
  | [] => mret text
  | filter :: rest => text' ← invoke filter text; forEach rest text'
  end.

Definition filterField (text : jsval) (filters : list entry) : Eff jsval :=
  if strict_eq text JNull || strict_eq text (JStr []) then mret text
  else forEach filters text.

Definition createFilters (filters : entry) : list entry :=
  match filters with
  | EFun filterFunction => [EFun filterFunction]
  | EArr l => l
  | _ => []
  end.

Definition fields : list string := ["artist"; "track"; "album"]%string.

(** The loop over the three field names, assigning one property each. *)
Definition createMergedFilters (filterSet : gmap string entry)
  : gmap string (list entry) :=
  foldl (fun mergedFilterSet field =>
           <[field := createFilters (get_prop filterSet field)
                        ++ createFilters (get_prop filterSet "all")]>
             mergedFilterSet)
        ∅ fields.

(** The object built by [new MetadataFilter(filterSet)]: its three methods
    close over [mergedFilterSet]. *)
Record t : Type := New_ { mergedFilterSet : gmap string (list entry) }.

Definition New (filterSet : gmap string entry) : t :=
  New_ (createMergedFilters filterSet).

(** [filterField(text, mergedFilterSet.<field>)]; reading a missing
    property gives undefined, on which [forEach] cannot be called. *)
Definition filterBy (field : string) (mf : t) (text : jsval) : Eff jsval :=
  match mergedFilterSet mf !! field with
  | Some filters => filterField text filters
  | None =>
      if strict_eq text JNull || strict_eq text (JStr []) then mret text
      else raise TypeError
  end.

Definition filterArtist := filterBy "artist".
Definition filterTrack := filterBy "track".
Definition filterAlbum := filterBy "album".

(** [MetadataFilter.trim]: [text.trim()] exists on strings only. *)
Definition trim : filterfn := fun text =>
  match text with
  | JStr s => Ok (JStr (string_trim s))
  | _ => Throw TypeError
  end.

(** Line 105: /[\u200B-\u200D\uFEFF]/g *)
Definition zero_width_re : regexp :=
  RegExp (cls [IRange 0x200B 0x200D; IChar 0xFEFF]) false true.

(** [MetadataFilter.removeZeroWidth] *)
Definition removeZeroWidth : filterfn := fun text =>
  match text with
  | JStr s => Ok (JStr (string_replace s zero_width_re []))
  | _ => Throw TypeError
  end.

(** Line 114: /&#(\d+);/g *)
Definition entity_re : regexp :=
  RegExp (cat [chr "&"; chr "#"; Group 1 (plus digit); chr ";"]) false true.

(** [MetadataFilter.decodeHtmlEntities]: the replacer is
    [(match, dec) => String.fromCharCode(dec)]. *)
Definition decodeHtmlEntities : filterfn := fun text =>
  match text with
  | JStr s =>
      Ok (JStr (string_replace_fn s entity_re
                  (fun m => fromCharCode (default [] (m !! 1%nat)))))
  | _ => Throw TypeError
  end.

(** A replace rule of a filter set. *)
Record rule : Type := Rule { source : regexp; target : list piece }.

(** [text.replace(data.source, data.target)]: only strings have [replace]. *)
Definition replace (text : jsval) (data : rule) : res jsval :=
  match text with
  | JStr s => Ok (JStr (string_replace s (source data) (target data)))
  | _ => Throw TypeError
  end.

(** [for (let data of set) { text = text.replace(...) }] *)
Fixpoint filterWithFilterSet (text : jsval) (set : list rule) : res jsval :=
  match set with
  | [] => Ok text
  | data :: rest =>
      match replace text data with
      | Ok text' => filterWithFilterSet text' rest
      | Throw e => Throw e
      end
  end.

Definition re (r : regex) : regexp := RegExp r false false.
Definition re_i (r : regex) : regexp := RegExp r true false.
Definition re_g (r : regex) : regexp := RegExp r false true.

(** The class of lines 211 and 213 (the double quote is spelled \x22 in
    the comments below); next to a class escape the dash is a literal dash. *)
Definition junk : list citem :=
  [ic "/"; ISpace; ic ","; ic ":"; ic ";"; ic "~"; ic "-"; ISpace; IChar dquote].

Definition YOUTUBE_TRACK_FILTERS : list rule := [
  (* line 169: /^\s+|\s+$/g *)
  Rule (re_g (Alt (cat [Bol; plus ws]) (cat [plus ws; Eol]))) [];
  (* line 171: /\s*\*+\s?\S+\s?\*+$/ *)
  Rule (re (cat [star ws; plus (chr "*"); opt ws; plus (Atom NotSpace);
                 opt ws; plus (chr "*"); Eol])) [];
  (* line 173: /\s*\[[^\]]+\]$/ *)
  Rule (re (cat [star ws; chr "["; plus (ncls [ic "]"]); chr "]"; Eol])) [];
  (* line 175: /\s*\([^\)]*version\)$/i *)
  Rule (re_i (cat [star ws; chr "("; star (ncls [ic ")"]); lit "version";
                   chr ")"; Eol])) [];
  (* line 177: /\s*\.(avi|wmv|mpg|mpeg|flv)$/i *)
  Rule (re_i (cat [star ws; chr ".";
                   Group 1 (alt [lit "avi"; lit "wmv"; lit "mpg"; lit "mpeg";
                                 lit "flv"]); Eol])) [];
  (* line 179: the (LYRIC VIDEO) rule: optional group 1, then group 2,
     each closed by \s* *)
  Rule (re_i (cat [star ws; opt (Group 1 (cat [lit "LYRIC VIDEO"; star ws]));
                   Group 2 (cat [lit "lyric video"; star ws])])) [];
  (* line 181: the (Official Track Stream) rule: inside group 1 the final
     m is starred *)
  Rule (re_i (cat [star ws;
                   Group 1 (cat [lit "Official Track Strea"; star (chr "m")])])) [];
  (* line 183: the (official)? (music)? video rule: two optional groups,
     each closed by \s* *)
  Rule (re_i (cat [star ws;
                   opt (Group 1 (cat [chr "o"; plus (chr "f"); lit "icial"; star ws]));
                   opt (Group 2 (cat [lit "music"; star ws])); lit "video"])) [];
  (* line 185: the (official)? (music)? audio rule: two optional groups,
     each closed by \s* *)
  Rule (re_i (cat [star ws;
                   opt (Group 1 (cat [chr "o"; plus (chr "f"); lit "icial"; star ws]));
                   opt (Group 2 (cat [lit "music"; star ws])); lit "audio"])) [];
  (* line 187: the (ALBUM TRACK) rule: optional group 1, then group 2,
     each closed by \s* *)
  Rule (re_i (cat [star ws; opt (Group 1 (cat [lit "ALBUM TRACK"; star ws]));
                   Group 2 (cat [lit "album track"; star ws])])) [];
  (* line 189: the (Cover Art) rule: optional group 1, then group 2,
     each closed by \s* *)
  Rule (re_i (cat [star ws; opt (Group 1 (cat [lit "COVER ART"; star ws]));
                   Group 2 (cat [lit "Cover Art"; star ws])])) [];
  (* line 191: /\s*\(\s*of+icial\s*\)/i *)
  Rule (re_i (cat [star ws; chr "("; star ws; chr "o"; plus (chr "f");
                   lit "icial"; star ws; chr ")"])) [];
  (* line 193: /\s*\(\s*[0-9]{4}\s*\)/i *)
  Rule (re_i (cat [star ws; chr "("; star ws;
                   times 4 (cls [IRange 48 57]); star ws; chr ")"])) [];
  (* line 195: /\s+\(\s*(HD|HQ)\s*\)$/ *)
  Rule (re (cat [plus ws; chr "("; star ws; Group 1 (alt [lit "HD"; lit "HQ"]);
                 star ws; chr ")"; Eol])) [];
  (* line 197: /\s+(HD|HQ)\s*$/ *)
  Rule (re (cat [plus ws; Group 1 (alt [lit "HD"; lit "HQ"]); star ws; Eol])) [];
  (* line 199: /\s*video\s*clip/i *)
  Rule (re_i (cat [star ws; lit "video"; star ws; lit "clip"])) [];
  (* line 201: /\s*full\s*album/i *)
  Rule (re_i (cat [star ws; lit "full"; star ws; lit "album"])) [];
  (* line 203: /\s+\(?live\)?$/i *)
  Rule (re_i (cat [plus ws; opt (chr "("); lit "live"; opt (chr ")"); Eol])) [];
  (* line 205: /\(+\s*\)+/ *)
  Rule (re (cat [plus (chr "("); star ws; plus (chr ")")])) [];
  (* line 207: the double-quoted title rule, with target '$2' *)
  Rule (re (cat [Bol; Group 1 (Alt Empty (cat [star dot; ws])); qchr dquote;
                 Group 2 (star dot); qchr dquote;
                 Group 3 (Alt (cat [ws; star dot]) Empty); Eol])) [PGroup 2];
  (* line 209: the single-quoted title rule, with target '$2' *)
  Rule (re (cat [Bol; Group 1 (Alt Empty (cat [star dot; ws])); qchr squote;
                 Group 2 (star dot); qchr squote;
                 Group 3 (Alt (cat [ws; star dot]) Empty); Eol])) [PGroup 2];
  (* line 211: /^[\/\s,:;~-\s\x22]+/ *)
  Rule (re (cat [Bol; plus (cls junk)])) [];
  (* line 213: /[\/\s,:;~-\s\x22\s!]+$/ *)
  Rule (re (cat [plus (cls (junk ++ [ISpace; ic "!"])); Eol])) []
].

Definition REMASTERED_FILTERS : list rule := [
  (* line 223: /\-\sRemastered$/ *)
  Rule (re (cat [chr "-"; ws; lit "Remastered"; Eol])) [];
  (* line 225: /\-\sRemastered\s\d+$/ *)
  Rule (re (cat [chr "-"; ws; lit "Remastered"; ws; plus digit; Eol])) [];
  (* line 227: /\(Remastered\s\d+\)$/ *)
  Rule (re (cat [chr "("; lit "Remastered"; ws; plus digit; chr ")"; Eol])) [];
  (* line 229: /\[\d+\s-\sRemaster\]$/ *)
  Rule (re (cat [chr "["; plus digit; ws; chr "-"; ws; lit "Remaster";
                 chr "]"; Eol])) [];
  (* line 231: /\(\d+\s-\sRemaster\)$/ *)
  Rule (re (cat [chr "("; plus digit; ws; chr "-"; ws; lit "Remaster";
                 chr ")"; Eol])) [];
  (* line 233: /\-\s\d+\s\-\sRemaster$/ *)
  Rule (re (cat [chr "-"; ws; plus digit; ws; chr "-"; ws; lit "Remaster"; Eol])) [];
  (* line 235: /\-\s\d+\s.+?\sRemaster$/ *)
  Rule (re (cat [chr "-"; ws; plus digit; ws; plus_lazy dot; ws;
                 lit "Remaster"; Eol])) [];
  (* line 237: /\-\s\d+\sRemastered Version$/ *)
  Rule (re (cat [chr "-"; ws; plus digit; ws; lit "Remastered Version"; Eol])) [];
  (* line 239: /\(Live\s\/\sRemastered\)$/i *)
  Rule (re_i (cat [chr "("; lit "Live"; ws; chr "/"; ws; lit "Remastered";
                   chr ")"; Eol])) [];
  (* line 241: /\-\sLive\s\/\sRemastered$/ *)
  Rule (re (cat [chr "-"; ws; lit "Live"; ws; chr "/"; ws; lit "Remastered"; Eol])) []
].

Definition youtube : filterfn := fun text =>
  filterWithFilterSet text YOUTUBE_TRACK_FILTERS.

Definition removeRemastered : filterfn := fun text =>
  filterWithFilterSet text REMASTERED_FILTERS.

Definition getTrimFilter : t :=
  New (<["artist" := EFun trim]> (<["track" := EFun trim]>
        (<["album" := EFun trim]> ∅))).

Definition getYoutubeFilter : t :=
  New (<["track" := EFun youtube]> (<["all" := EFun trim]> ∅)).

Definition getRemasteredFilter : t :=
  New (<["all" := EFun trim]> (<["track" := EFun removeRemastered]>
        (<["album" := EFun removeRemastered]> ∅))).

End MetadataFilter.

(** ** The YouTube connector ([src/connectors/v2/youtube.js]) *)

Module Youtube.

(** *** The page as jQuery shows it *)

(** What [$el.offset()] reports: the coordinates of the element in the
    document, possibly fractional or negative. *)
Record offset : Type := Offset { left : Qc; top : Qc }.

Record element : Type := Element { el_id : nat; el_offset : offset }.

(** A snapshot of the document: the elements [$(selector)] finds. *)
Definition document := string -> list element.

Definition videoSelector : string := ".html5-main-video".

(** [Connector.isPlayerOffscreen] as [setupDefaultPlayer] defines it. *)
Definition isPlayerOffscreen_default (doc : document) : bool :=
  match doc "#player-api" with
  | [] => false                                   (* $player.length === 0 *)
  | player :: _ =>
      let offset := el_offset player in
      bool_decide (left offset < 0)%Qc || bool_decide (top offset < 0)%Qc
  end.

(** [Connector.isPlayerOffscreen] as [setupMaterialPlayer] defines it. *)
Definition isPlayerOffscreen_material (doc : document) : bool :=
  match doc "#player-container" with
  | [] => false                                   (* $player.length === 0 *)
  | player :: _ =>
      let offset := el_offset player in
      bool_decide (left offset <= 0)%Qc || bool_decide (top offset <= 0)%Qc
  end.

(** [isDefaultPlayer]: no [ytd-app] element on the page. *)
Definition isDefaultPlayer (doc : document) : bool :=
  (length (doc "ytd-app") =? 0)%nat.

(** The predicate [setupConnector] installs, decided once at injection. *)
Definition isPlayerOffscreen (defaultPlayer : bool) : document -> bool :=
  if defaultPlayer then isPlayerOffscreen_default
  else isPlayerOffscreen_material.

(** *** The mutation observer of [setupMutationObserver] *)

(** What a callback of the observer does to the outside. *)
Inductive action : Type :=
  | StateChanged                          (* Connector.onStateChanged() *)
  | AttachTimeupdate (targets : list nat).
      (* $(videoSelector).on('timeupdate', Connector.onStateChanged) *)

(** One run of the observer callback on the document as it is at that
    moment; the state is the flag [isMusicVideoPresent]. *)
Definition observer_callback (offscreen : document -> bool)
    (isMusicVideoPresent : bool) (doc : document) : bool * list action :=
  if offscreen doc then (isMusicVideoPresent, [StateChanged])
  else if isMusicVideoPresent then (isMusicVideoPresent, [])
  else (true, [AttachTimeupdate (el_id <$> doc videoSelector)]).

(** The callbacks for a sequence of observed mutations; the result lists
    the actions of each callback in turn. *)
Fixpoint observe (offscreen : document -> bool) (isMusicVideoPresent : bool)
    (mutations : list document) : bool * list (list action) :=
  match mutations with
  | [] => (isMusicVideoPresent, [])
  | doc :: rest =>
      let '(flag, acts) := observer_callback offscreen isMusicVideoPresent doc in
      let '(flag', trace) := observe offscreen flag rest in
      (flag', acts :: trace)
  end.

(** [setupMutationObserver] starts with [isMusicVideoPresent = false]. *)
Definition setupMutationObserver (offscreen : document -> bool)
    (mutations : list document) : bool * list (list action) :=
  observe offscreen false mutations.

Definition is_attach (a : action) : bool :=
  match a with AttachTimeupdate _ => true | StateChanged => false end.

(** *** [processYoutubeVideoTitle] *)

Record ParsedTrack : Type := Parsed { artist : jsval; track : jsval }.

(** [Connector.splitArtistTrack] belongs to the connector base; it is
    taken as a parameter.  It may throw; [None] stands for a result that
    cannot be destructured (null or undefined). *)
Definition splitter := jsstring -> res (option ParsedTrack).

(** Line 213: /^\[[^\]]+\]\s*-*\s*/i *)
Definition genre_re : regexp :=
  RegExp (cat [Bol; chr "["; plus (ncls [ic "]"]); chr "]"; star ws;
               star (chr "-"); star ws]) true false.

(** The pattern of line 218: group 1 is a lazy .+, then \s and a double
    quote, group 2 is a lazy .+, then a double quote. *)
Definition quoted_re : regexp :=
  RegExp (cat [Group 1 (plus_lazy dot); ws; qchr dquote;
               Group 2 (plus_lazy dot); qchr dquote]) false false.

(** [m[i]] on a match result. *)
Definition group (m : gmap nat jsstring) (i : nat) : jsval :=
  match m !! i with
  | Some s => JStr s
  | None => JUndefined
  end.

Definition processYoutubeVideoTitle (splitArtistTrack : splitter)
    (text : jsval) : res ParsedTrack :=
  if negb (toBoolean text) then Ok (Parsed JNull JNull)
  else
    match text with
    | JStr s =>
        let text := string_replace s genre_re [] in
        match splitArtistTrack text with
        | Throw e => Throw e
        | Ok None => Throw TypeError
        | Ok (Some (Parsed artist track)) =>
            if strict_eq artist JNull && strict_eq track JNull then
              match string_match text quoted_re with
              | Some artistTrack =>
                  Ok (Parsed (group artistTrack 1) (group artistTrack 2))
              | None => Ok (Parsed artist track)
              end
            else Ok (Parsed artist track)
        end
    | _ => Throw TypeError                   (* text.replace is not a function *)
    end.

(** *** The contents of the page *)

(** An element with what the connector reads from it. *)
Record node : Type := Node {
  n_element : element;
  n_attrs : gmap string jsstring;
  n_text : jsstring;
  n_props : gmap string jsval;
  n_classes : list string
}.

(** The page: the elements [$(selector)] finds, with their contents. *)
Definition dom := string -> list node.

Definition document_of (d : dom) : document :=
  fun selector => n_element <$> d selector.

(** [$(selector).attr(name)]: the attribute of the first element, or
    undefined. *)
Definition jq_attr (d : dom) (selector name : string) : jsval :=
  match d selector with
  | [] => JUndefined
  | n :: _ =>
      match n_attrs n !! name with
      | Some v => JStr v
      | None => JUndefined
      end
  end.

(** [$(selector).text()]: the text of all the elements found. *)
Definition jq_text (d : dom) (selector : string) : jsstring :=
  concat (n_text <$> d selector).

(** [$(selector).prop(name)]: the property of the first element, or
    undefined. *)
Definition jq_prop (d : dom) (selector name : string) : jsval :=
  match d selector with
  | [] => JUndefined
  | n :: _ => default JUndefined (n_props n !! name)
  end.

(** [$(selector).hasClass(name)]: some element found has the class. *)
Definition jq_hasClass (d : dom) (selector name : string) : bool :=
  existsb (fun n => bool_decide (name ∈ n_classes n)) (d selector).

(** The selector of [getItemPropValue], a meta element with the given
    itemprop in double quotes. *)
Definition itemprop_selector (prop : string) : string :=
  let q := String "034"%char EmptyString in
  "meta[itemprop=" +:+ q +:+ prop +:+ q +:+ "]".

Definition getItemPropValue (d : dom) (prop : string) : jsval :=
  jq_attr d (itemprop_selector prop) "content".

(** *** The default player ([setupDefaultPlayer]) *)

Definition default_getArtistTrack (splitArtistTrack : splitter) (d : dom)
    : res ParsedTrack :=
  let text := getItemPropValue d "name" in
  processYoutubeVideoTitle splitArtistTrack text.

Definition default_getUniqueID (d : dom) : res jsval :=
  Ok (getItemPropValue d "videoId").

(** [Connector.isStateChangeAllowed]; [scrobbleMusicOnly] is the variable of
    the script. *)
Definition isStateChangeAllowed (scrobbleMusicOnly : bool) (d : dom) : bool :=
  let videoCategory := getItemPropValue d "genre" in
  if toBoolean videoCategory then
    negb scrobbleMusicOnly
    || (scrobbleMusicOnly && strict_eq videoCategory (JStr (str "Music")))
  else true.

(** *** The Material player ([setupMaterialPlayer]) *)

Definition material_getArtistTrack (splitArtistTrack : splitter) (d : dom)
    : res ParsedTrack :=
  if isPlayerOffscreen_material (document_of d) then Ok (Parsed JNull JNull)
  else
    let text := jq_text d "h1.title.ytd-video-primary-info-renderer" in
    processYoutubeVideoTitle splitArtistTrack (JStr text).

(** Line 116: /v=(.+)&?/ *)
Definition video_id_re : regexp :=
  RegExp (cat [chr "v"; chr "="; Group 1 (plus dot); opt (chr "&")])
    false false.

Definition material_getUniqueID (d : dom) : res jsval :=
  if isPlayerOffscreen_material (document_of d) then Ok JNull
  else
    let videoUrl := jq_attr d ".ytp-title-link" "href" in
    match videoUrl with
    | JStr url =>
        match string_match url video_id_re with
        | Some m => Ok (group m 1)
        | None => Ok JNull
        end
    | _ => Throw TypeError                 (* videoUrl.match on undefined *)
    end.

(** *** Common to both players ([setupBasePlayer]) *)

Definition getCurrentTime (offscreen : document -> bool) (d : dom) : jsval :=
  if offscreen (document_of d) then JNull
  else jq_prop d videoSelector "currentTime".

Definition getDuration (offscreen : document -> bool) (d : dom) : jsval :=
  if offscreen (document_of d) then JNull
  else jq_prop d videoSelector "duration".

Definition isPlaying (d : dom) : bool :=
  jq_hasClass d ".html5-video-player" "playing-mode".

(** *** [readConnectorOptions] *)

(** What [chrome.storage.local.get] hands to the callback. *)
Inductive stored : Type :=
  | SVal (v : jsval)
  | SObj (props : list (string * stored)).

(** [o.key]: the property of an object, undefined when it is missing or
    when [o] is a primitive. *)
Definition stored_get (o : stored) (key : string) : stored :=
  match o with
  | SObj props =>
      match list_find (fun p => p.1 = key) props with
      | Some (_, (_, v)) => v
      | None => SVal JUndefined
      end
  | SVal _ => SVal JUndefined
  end.

Definition stored_truthy (o : stored) : bool :=
  match o with
  | SObj _ => true
  | SVal v => toBoolean v
  end.

(** The callback of [readConnectorOptions]: the new value of
    [scrobbleMusicOnly] (the line that logs the options is left out: it
    changes nothing). *)
Definition readConnectorOptions (data : stored) (scrobbleMusicOnly : bool)
    : bool :=
  if stored_truthy data && stored_truthy (stored_get data "Connectors")
     && stored_truthy (stored_get (stored_get data "Connectors") "YouTube")
  then
    let options := stored_get (stored_get data "Connectors") "YouTube" in
    match stored_get options "scrobbleMusicOnly" with
    | SVal (JBool true) => true
    | _ => scrobbleMusicOnly
    end
  else scrobbleMusicOnly.

(** *** [setupConnector] *)

(** The functions the script installs on [Connector]. The default player
    also installs [isStateChangeAllowed]. *)
Record connector : Type := Connector {
  c_isPlayerOffscreen : document -> bool;
  c_getArtistTrack : dom -> res ParsedTrack;
  c_getUniqueID : dom -> res jsval;
  c_getCurrentTime : dom -> jsval;
  c_getDuration : dom -> jsval;
  c_isPlaying : dom -> bool;
  c_isStateChangeAllowed : option (bool -> dom -> bool)
}.

Definition setupConnector (splitArtistTrack : splitter) (d : dom)
    : connector :=
  if isDefaultPlayer (document_of d) then
    Connector isPlayerOffscreen_default
      (default_getArtistTrack splitArtistTrack) default_getUniqueID
      (getCurrentTime isPlayerOffscreen_default)
      (getDuration isPlayerOffscreen_default) isPlaying
      (Some isStateChangeAllowed)
  else
    Connector isPlayerOffscreen_material
      (material_getArtistTrack splitArtistTrack) material_getUniqueID
      (getCurrentTime isPlayerOffscreen_material)
      (getDuration isPlayerOffscreen_material) isPlaying
      None.

End Youtube.

(** ** Notifications ([src/core/background/notifications.js])

    The module keeps the map [clickListeners] and talks to
    [chrome.notifications], to the analytics service and to the window.
    What chrome answers is a parameter; the calls made are recorded as
    effects.  Notification ids are the ones chrome generates (the module
    always creates with an empty id), so they are never names that every
    object inherits. *)

Module Notifications.

Definition SIGN_IN_ERROR_MESSAGE : jsstring :=
  str "Unable to log in to Last.fm. Please try later".

(** [DEFAULT_OPTIONS_VALUES], in the order of its keys. *)
Definition DEFAULT_OPTIONS_VALUES : list (string * jsval) :=
  [("type", JStr (str "basic")); ("iconUrl", JStr (str "icons/icon128.png"))]%string.

(** The functions given as click listeners: the two the module makes itself
    and those of its callers. *)
Inductive callback : Type :=
  | OpenStatusPage                      (* of showSignInError *)
  | OpenAuth (authUrl : jsstring)       (* of showAuthenticate *)
  | External (n : nat).

(** The value given as [onClicked]: a function or something else. *)
Inductive handler : Type :=
  | HFun (f : callback)
  | HVal (v : jsval).

Definition handler_truthy (h : handler) : bool :=
  match h with
  | HFun _ => true
  | HVal v => toBoolean v
  end.

Definition is_function (h : handler) : bool :=
  match h with HFun _ => true | HVal _ => false end.

(** What the module does to the outside. *)
Inductive effect : Type :=
  | GAEvent (category action label : string)
  | TabsCreate (url : jsstring)
  | WindowOpen (url : jsstring)
  | SetNotificationId (notificationId : jsstring).
      (* song.metadata.attr('notificationId', notificationId) *)

(** [isAllowed], on the value of [localStorage.useNotifications]. *)
Definition isAllowed (useNotifications : jsval) : bool :=
  strict_eq useNotifications (JStr (str "1")).

Definition addOnClickedListener (clickListeners : gmap jsstring handler)
    (notificationId : jsstring) (callback : handler)
    : gmap jsstring handler :=
  <[notificationId := callback]> clickListeners.

Definition removeOnClickedListener (clickListeners : gmap jsstring handler)
    (notificationId : jsstring) : gmap jsstring handler :=
  match clickListeners !! notificationId with
  | Some h =>
      if handler_truthy h then delete notificationId clickListeners
      else clickListeners
  | None => clickListeners
  end.

(** [options[key]] *)
Definition get_option (options : gmap string jsval) (key : string) : jsval :=
  default JUndefined (options !! key).

(** The loop over [DEFAULT_OPTIONS_VALUES] in [showNotification]. *)
Definition apply_defaults (options : gmap string jsval) : gmap string jsval :=
  foldl (fun options '(key, defaultValue) =>
           if toBoolean (get_option options key) then options
           else <[key := defaultValue]> options)
        options DEFAULT_OPTIONS_VALUES.

(** What [chrome.notifications.getPermissionLevel] does: it is missing (on
    Firefox, where the module defines it to answer granted), it answers, or
    it never calls back. *)
Inductive permission_api : Type :=
  | PermissionMissing
  | PermissionAnswers (level : jsstring)
  | PermissionSilent.

(** What [chrome.notifications.create] does. *)
Inductive create_api : Type :=
  | CreateThrows (e : jsval)
  | CreateAnswers (notificationId : jsstring)
  | CreateSilent.

Record chrome : Type := Chrome {
  notifications_available : bool;       (* chrome.notifications !== undefined *)
  getPermissionLevel : permission_api;
  create : create_api
}.

Definition isAvailable (env : chrome) : bool := notifications_available env.

Definition permission_answer (env : chrome) : option jsstring :=
  match getPermissionLevel env with
  | PermissionMissing => Some (str "granted")
  | PermissionAnswers level => Some level
  | PermissionSilent => None
  end.

Inductive promise : Type :=
  | Pending
  | Resolved (notificationId : jsstring)
  | Rejected (reason : jsval).

(** The outcome of [showNotification]: the promise, the options object as
    the call leaves it, the options chrome was asked to create a
    notification with, and the click listeners. *)
Record shown : Type := Shown {
  sh_promise : promise;
  sh_options : gmap string jsval;
  sh_created : option (gmap string jsval);
  sh_listeners : gmap jsstring handler
}.

Definition showNotification (env : chrome)
    (clickListeners : gmap jsstring handler) (options : gmap string jsval)
    (onClicked : handler) : shown :=
  if negb (isAvailable env) then
    Shown (Rejected JUndefined) options None clickListeners
  else
    let options :=
      if is_function onClicked then <["isClickable" := JBool true]> options
      else options in
    let options := apply_defaults options in
    match permission_answer env with
    | None => Shown Pending options None clickListeners
    | Some permissionLevel =>
        if negb (bool_decide (permissionLevel = str "granted")) then
          Shown (Rejected JUndefined) options None clickListeners
        else
          match create env with
          | CreateThrows e => Shown (Rejected e) options None clickListeners
          | CreateSilent => Shown Pending options (Some options) clickListeners
          | CreateAnswers notificationId =>
              Shown (Resolved notificationId) options (Some options)
                (if handler_truthy onClicked
                 then addOnClickedListener clickListeners notificationId onClicked
                 else clickListeners)
          end
    end.

(** [getCurrentTime], on the hours and minutes of the current date. *)
Definition number_to_string (n : nat) : jsstring := str (pretty (N.of_nat n)).

Definition getCurrentTime (hours minutes : nat) : jsstring :=
  let ampm := if (12 <=? hours)%nat then str "pm" else str "am" in
  let hours := (hours mod 12)%nat in
  let hours := if (hours =? 0)%nat then 12%nat else hours in
  let minutes :=
    if (minutes <? 10)%nat then str "0" ++ number_to_string minutes
    else number_to_string minutes in
  number_to_string hours ++ str ":" ++ minutes ++ ampm.

(** A song as [showPlaying] reads it: its getters give a string or null,
    and [metadata.connector], when there is one, has a label. *)
Record song : Type := Song {
  getTrackArt : option jsstring;
  getTrack : option jsstring;
  getArtist : option jsstring;
  connector_label : option jsstring
}.

Definition text_value (o : option jsstring) : jsval :=
  match o with Some s => JStr s | None => JNull end.

(** String concatenation with a string or null. *)
Definition text_string (o : option jsstring) : jsstring :=
  match o with Some s => s | None => str "null" end.

Definition playing_options (hours minutes : nat) (s : song)
    : gmap string jsval :=
  let contextMessage := getCurrentTime hours minutes in
  let contextMessage :=
    match connector_label s with
    | Some connectorLabel => contextMessage ++ [32; 183; 32] ++ connectorLabel
    | None => contextMessage
    end in
  <["iconUrl" :=
      if toBoolean (text_value (getTrackArt s)) then text_value (getTrackArt s)
      else JStr (str "icons/default_cover_art.png")]>
    (<["title" := text_value (getTrack s)]>
      (<["message" := JStr (str "by " ++ text_string (getArtist s))]>
        (<["contextMessage" := JStr contextMessage]> ∅))).

(** [showPlaying]: nothing at all when notifications are not allowed. *)
Definition showPlaying (env : chrome) (clickListeners : gmap jsstring handler)
    (useNotifications : jsval) (hours minutes : nat) (s : song)
    : option shown * list effect :=
  if negb (isAllowed useNotifications) then (None, [])
  else
    let r := showNotification env clickListeners
               (playing_options hours minutes s) (HVal JNull) in
    (Some r,
     match sh_promise r with
     | Resolved notificationId =>
         [GAEvent "notification" "playing" "show";
          SetNotificationId notificationId]
     | _ => []
     end).

(** [showError]; a missing [onClick] is null. *)
Definition showError (env : chrome) (clickListeners : gmap jsstring handler)
    (message : jsval) (onClick : option handler) : shown * list effect :=
  let onClick := default (HVal JNull) onClick in
  let options :=
    <["title" := JStr (str "Web scrobbler error")]>
      (<["message" := message]> ∅) in
  let r := showNotification env clickListeners options onClick in
  (r,
   match sh_promise r with
   | Resolved _ => [GAEvent "notification" "error" "show"]
   | _ => []
   end).

Definition showSignInError (env : chrome)
    (clickListeners : gmap jsstring handler) : shown * list effect :=
  showError env clickListeners (JStr SIGN_IN_ERROR_MESSAGE)
    (Some (HFun OpenStatusPage)).

(** [showAuthenticate]: [authUrl] is what the promise of [authUrlGetter]
    comes to; [None] when it is rejected. *)
Definition showAuthenticate (env : chrome)
    (clickListeners : gmap jsstring handler) (authUrl : option jsstring)
    : shown * list effect :=
  match authUrl with
  | Some authUrl =>
      let options :=
        <["title" := JStr (str "Connect your Last.FM account")]>
          (<["message" :=
              JStr (str "Click the notification or connect later in the extension options page")]>
             ∅) in
      let r := showNotification env clickListeners options
                 (HFun (OpenAuth authUrl)) in
      (r,
       match sh_promise r with
       | Resolved _ => [GAEvent "notification" "authenticate" "show"]
       | Rejected _ =>
           [GAEvent "notification" "authenticate" "open-unavailable";
            WindowOpen authUrl]
       | Pending => []
       end)
  | None => showSignInError env clickListeners
  end.

(** [remove]: the id handed to [chrome.notifications.clear], if any. *)
Definition remove (notificationId : jsval) : option jsval :=
  if toBoolean notificationId then Some notificationId else None.

(** What a click listener does when called. *)
Definition run_callback (f : callback) : list effect :=
  match f with
  | OpenStatusPage => [TabsCreate (str "http://status.last.fm/")]
  | OpenAuth authUrl =>
      [GAEvent "notification" "authenticate" "click"; WindowOpen authUrl]
  | External _ => []
  end.

(** The property names every object inherits from [Object.prototype]. The
    click listeners are kept in a plain object, where a lookup of one of
    these names finds the inherited value; the map stands for the object on
    the other names, which is where the ids the browser gives to
    notifications are. *)
Definition inherited (key : jsstring) : bool :=
  bool_decide (key ∈ (str <$> ["constructor"; "hasOwnProperty"; "isPrototypeOf";
    "propertyIsEnumerable"; "toLocaleString"; "toString"; "valueOf";
    "__proto__"; "__defineGetter__"; "__defineSetter__"; "__lookupGetter__";
    "__lookupSetter__"]%string)).

(** The listener of [chrome.notifications.onClicked]: the function called
    with the id, a TypeError when the listener is not a function, or
    nothing. *)
Definition onClicked (clickListeners : gmap jsstring handler)
    (notificationId : jsstring) : res (option (callback * jsstring)) :=
  match clickListeners !! notificationId with
  | Some h =>
      if handler_truthy h then
        match h with
        | HFun f => Ok (Some (f, notificationId))
        | HVal _ => Throw TypeError
        end
      else Ok None
  | None => Ok None
  end.

(** The listener of [chrome.notifications.onClosed]. *)
Definition onClosed (clickListeners : gmap jsstring handler)
    (notificationId : jsstring) : gmap jsstring handler :=
  removeOnClickedListener clickListeners notificationId.

End Notifications.

(** * Properties *)

(** ** Vocabulary *)


(** [y] is a state of the same input as [x], not before it. *)
Definition wf_step (x y : mstate) : Prop :=
  (m_pos x ≤ m_pos y)%nat
  ∧ (m_pos y + length (m_rest y) = m_pos x + length (m_rest x))%nat.

(** A matcher that consults its continuation on later states of the same
    input only. *)
Definition local (m : matcher) : Prop :=
  ∀ x c c', (∀ y, wf_step x y → c y = c' y) → m x c = m x c'.

(** What [.] accepts. *)
Definition dotchar (c : N) : Prop := is_line_terminator c = false.

Module FilterSpec.
Import MetadataFilter.

(** The [normalize] of the specification, on a slot of the configuration
    that may be absent: a single function becomes a one-element sequence,
    a sequence is passed through, anything else gives the empty sequence. *)
Definition normalize_spec (slot : option entry) : list entry :=
  match slot with
  | Some (EFun f) => [EFun f]
  | Some (EArr fs) => fs
  | _ => []
  end.

(** The fault containment the specification asks of the filter engine: when
    the filters before [f] turned [text] into [partial] and [f] faults on
    it, the call returns [partial]. *)
Definition returns_partial_on_fault : Prop :=
  ∀ (pre post : list entry) (f : filterfn) (text partial : jsval) (e : exn)
    (l l' : log),
    text ≠ JNull → text ≠ JStr [] →
    forEach pre text l = (l', Ok partial) → f partial = Throw e →
    (filterField text (pre ++ EFun f :: post) l).2 = Ok partial.

(** A filter function with an internal fault. *)
Definition faulty : filterfn := fun _ => Throw (Thrown (JStr (str "fault"))).

(** A configuration with an array, a single function, a malformed entry
    and an absent one. *)
Definition sample_filterSet : gmap string entry :=
  <["track" := EArr [EFun youtube; EFun removeRemastered]]>
    (<["all" := EFun trim]> (<["album" := EVal (JNum 3)]> ∅)).

(** The reading of the specification by which a value other than null and
    the empty string is always taken through the whole compiled list: a
    field filter whose compiled list holds the functions [fs] invokes as
    many functions as the list has. *)
Definition invokes_every_filter : Prop :=
  ∀ (mf : t) (field : string) (fs : list filterfn) (text : jsval) (l : log),
    field ∈ fields → mergedFilterSet mf !! field = Some (EFun <$> fs) →
    text ≠ JNull → text ≠ JStr [] →
    length (filterBy field mf text l).1 = (length l + length fs)%nat.

(** The functions [fs] take [text] to [r] through the arguments [args]: the
    first argument is [text], each function returns on its argument, what it
    returns is the argument of the next, and the last one returns [r]. With
    no function at all, [r] is [text]. *)
Definition chain (fs : list filterfn) (text : jsval) (args : list jsval)
    (r : jsval) : Prop :=
  length args = length fs
  ∧ default r (args !! 0%nat) = text
  ∧ ∀ i f v, fs !! i = Some f → args !! i = Some v →
      f v = Ok (default r (args !! S i)).

End FilterSpec.

Module YoutubeSpec.
Import Youtube.

(** How often an action of a given kind occurs in a trace. *)
Definition count_actions (p : action → bool) (trace : list (list action))
    : nat :=
  length (filter (λ a, p a = true) (concat trace)).

(** A page of the default layout: the player at the given position and
    one video element. *)
Definition page (l t : Z) : document := fun selector =>
  if decide (selector = "#player-api") then
    [Element 1 (Offset (Qc_of_Z l) (Qc_of_Z t))]
  else if decide (selector = videoSelector) then
    [Element 2 (Offset (Qc_of_Z l) (Qc_of_Z t))]
  else [].

(** A page in transition: no selector finds anything. *)
Definition blank_page : document := fun _ => [].



(** A primary splitter that finds nothing. *)
Definition no_split : splitter := fun _ => Ok (Some (Parsed JNull JNull)).

End YoutubeSpec.

(** ** Vocabulary of the matcher, the rule sets, the connector and the
    notifications *)

(** A repetition of a single atom with no upper bound, by recursion on the
    input: what [repeat_matcher] computes for it. *)
Fixpoint atom_run (ic : bool) (a : cset) (greedy : bool) (c : cont)
    (min pos : nat) (caps : gmap nat jsstring) (rest : jsstring)
    : option mstate :=
  let stop := c (MState pos rest caps) in
  let step :=
    match rest with
    | ch :: rest' =>
        if cset_match ic a ch
        then atom_run ic a greedy c (pred min) (S pos) caps rest'
        else None
    | [] => None
    end in
  if negb (min =? 0)%nat then step
  else if negb greedy then
    match stop with Some z => Some z | None => step end
  else
    match step with Some z => Some z | None => stop end.

(** The same match state, [k] characters further into a longer input. *)
Definition shift (k : nat) (x : mstate) : mstate :=
  MState (m_pos x + k) (m_rest x) (m_caps x).

(** Patterns that do not look at the start of the input. *)
Fixpoint no_bol (r : regex) : bool :=
  match r with
  | Bol => false
  | Seq r1 r2 | Alt r1 r2 => no_bol r1 && no_bol r2
  | Rep r1 _ _ _ | Group _ r1 => no_bol r1
  | _ => true
  end.

(** The zero-width code units: zero-width space, non-joiner and joiner, and
    the byte-order mark. *)
Definition zero_width (c : N) : Prop :=
  c = 0x200B ∨ c = 0x200C ∨ c = 0x200D ∨ c = 0xFEFF.

Global Instance zero_width_dec c : Decision (zero_width c) :=
  ltac:(unfold zero_width; apply _).

(** A decimal digit, as a code unit. *)
Definition is_digit (c : N) : Prop := 48 ≤ c ≤ 57.

Definition ampersand : N := 38.


(** Dropping the leading, or the trailing, characters that satisfy [P]. *)
Fixpoint strip_start (P : N → bool) (s : jsstring) : jsstring :=
  match s with
  | [] => []
  | c :: s' => if P c then strip_start P s' else s
  end.

Fixpoint strip_end (P : N → bool) (s : jsstring) : jsstring :=
  match s with
  | [] => []
  | c :: s' =>
      match strip_end P s' with
      | [] => if P c then [] else [c]
      | t => c :: t
      end
  end.

(** The characters the last two rules of [YOUTUBE_TRACK_FILTERS] strip:
    white space, slash, comma, colon, semicolon, tilde, dash and double
    quote at both ends, and the exclamation mark at the end as well. *)
Definition is_junk (c : N) : bool :=
  is_space c || existsb (N.eqb c) [47; 44; 58; 59; 126; 45; 34].
Definition is_end_junk (c : N) : bool := is_junk c || (c =? 33).

(** The title without its leading genre tag: an opening bracket, at least
    one character other than a closing bracket, the closing bracket, then
    white space, dashes and white space again. Anything else is left as it
    is. *)
Definition strip_genre (s : jsstring) : jsstring :=
  match s with
  | 91 :: rest =>
      match strip_start (λ c, negb (c =? 93)) rest with
      | 93 :: after =>
          if (length after + 1 <? length rest)%nat then
            strip_start is_space
              (strip_start (λ c, c =? 45) (strip_start is_space after))
          else s
      | _ => s
      end
  | _ => s
  end.

(** The time as the specification of the format has it: the hour of the
    twelve-hour clock, a colon, two digits of minutes, am or pm. *)
Definition clock_string (hours minutes : nat) : jsstring :=
  let h12 := if (hours mod 12 =? 0)%nat then 12%nat else (hours mod 12)%nat in
  (if (h12 <? 10)%nat then [48 + N.of_nat h12]
   else [49; 48 + N.of_nat (h12 - 10)])
  ++ [58; 48 + N.of_nat (minutes / 10); 48 + N.of_nat (minutes mod 10)]
  ++ (if (hours <? 12)%nat then [97; 109] else [112; 109]).

Module RuleSpec.
Import MetadataFilter.

(** A rule that can only cut off the end of the text: its pattern ends in
    [$], it replaces the first match only, and by nothing. *)
Definition cuts_end_only (data : rule) : bool :=
  match re_pattern (source data), target data with
  | Seq _ Eol, [] => negb (re_global (source data))
  | _, _ => false
  end.

End RuleSpec.

Module ConnectorSpec.
Import Youtube.

(** A page of the Material layout: the application element and the
    player container at the given position. *)
Definition material_page (l t : Z) : dom := fun selector =>
  if decide (selector = "ytd-app") then
    [Node (Element 0 (Offset 0 0)) ∅ [] ∅ []]
  else if decide (selector = "#player-container") then
    [Node (Element 1 (Offset (Qc_of_Z l) (Qc_of_Z t))) ∅ [] ∅ []]
  else [].

(** A default-layout page whose meta elements give a genre. *)
Definition genre_page (genre : jsstring) : dom := fun selector =>
  if decide (selector = itemprop_selector "genre") then
    [Node (Element 1 (Offset 0 0)) {["content" := genre]} [] ∅ []]
  else [].

(** Stored options that switch music-only mode on. *)
Definition music_only_options : stored :=
  SObj [("Connectors",
         SObj [("YouTube", SObj [("scrobbleMusicOnly", SVal (JBool true))])])].

(** [url] contains v= followed by [id], which is not empty and runs to the
    end of the line. *)
Definition video_id_shape (url id : jsstring) : Prop :=
  ∃ pre tail,
    url = pre ++ 118 :: 61 :: id ++ tail
    ∧ id ≠ [] ∧ Forall dotchar id
    ∧ match tail with [] => True | c :: _ => is_line_terminator c = true end.

(** A Material page, on screen, whose title link has the given address. *)
Definition link_page (href : jsstring) : dom := fun selector =>
  if decide (selector = "#player-container") then
    [Node (Element 1 (Offset 1 1)) ∅ [] ∅ []]
  else if decide (selector = ".ytp-title-link") then
    [Node (Element 2 (Offset 1 1)) {["href" := href]} [] ∅ []]
  else [].

(** A primary splitter that answers with what it was handed as the track. *)
Definition echo_split : splitter := fun s =>
  Ok (Some (Parsed JNull (JStr s))).

End ConnectorSpec.

Module NotificationsSpec.
Import Notifications.

(** A browser that grants the permission and creates the notification
    with the given id. *)
Definition granting (notificationId : jsstring) : chrome :=
  Chrome true (PermissionAnswers (str "granted")) (CreateAnswers notificationId).

(** A browser without the notifications API. *)
Definition no_api : chrome := Chrome false PermissionSilent CreateSilent.

Definition sample_song : song :=
  Song None (Some (str "Let It Be")) (Some (str "The Beatles")) (Some (str "YouTube")).

End NotificationsSpec.

(** ** The matcher: fuel, atoms and lazy repetition *)

Lemma wf_step_refl x : wf_step x x.
Proof. by split. Qed.

Lemma wf_step_trans x y z : wf_step x y → wf_step y z → wf_step x z.
Proof. unfold wf_step. lia. Qed.

Lemma repeat_matcher_local m ps fuel min max g :
  local m → local (repeat_matcher m ps fuel min max g).
Proof.
  intros Hm. revert min max. induction fuel as [|fuel IH]; intros min max x c c' Hc.
  - cbn. destruct max as [[|?]|]; [|done..]. apply Hc, wf_step_refl.
  - cbn [repeat_matcher].
    assert (m (clear_caps ps x)
              (λ y, if (min =? 0)%nat && (m_pos y =? m_pos x)%nat then None
                    else repeat_matcher m ps fuel (pred min) (pred <$> max) g y c)
            = m (clear_caps ps x)
              (λ y, if (min =? 0)%nat && (m_pos y =? m_pos x)%nat then None
                    else repeat_matcher m ps fuel (pred min) (pred <$> max) g y c'))
      as Hiter.
    { apply Hm. intros y Hy. destruct (_ && _); [done|]. apply IH.
      intros z Hz. apply Hc. by apply (wf_step_trans x y z). }
    rewrite Hiter, (Hc x (wf_step_refl x)). done.
Qed.

Lemma rmatch_local ic r : local (rmatch ic r).
Proof.
  induction r as [|a|r1 IH1 r2 IH2|r1 IH1 r2 IH2|r IH min max g|i r IH| |];
    intros x c c' Hc; cbn [rmatch].
  - apply Hc, wf_step_refl.
  - destruct (m_rest x) as [|ch rest] eqn:E; [done|].
    destruct (cset_match ic a ch); [|done]. apply Hc.
    unfold wf_step. rewrite E. cbn. lia.
  - apply IH1. intros y Hy. apply IH2. intros z Hz. apply Hc.
    by apply (wf_step_trans x y z).
  - by rewrite (IH1 x c c' Hc), (IH2 x c c' Hc).
  - by apply repeat_matcher_local.
  - apply IH. intros y Hy. apply Hc. exact Hy.
  - destruct (m_pos x =? 0)%nat; [|done]. apply Hc, wf_step_refl.
  - destruct (m_rest x); [|done]. apply Hc, wf_step_refl.
Qed.

Lemma repeat_matcher_fuel m ps fuel fuel' min max g x c :
  local m →
  (min + length (m_rest x) < fuel)%nat → (min + length (m_rest x) < fuel')%nat →
  repeat_matcher m ps fuel min max g x c
  = repeat_matcher m ps fuel' min max g x c.
Proof.
  intros Hm. revert fuel' min max x.
  induction fuel as [|fuel IH]; intros fuel' min max x Hf Hf'; [lia|].
  destruct fuel' as [|fuel']; [lia|]. cbn [repeat_matcher].
  assert (m (clear_caps ps x)
            (λ y, if (min =? 0)%nat && (m_pos y =? m_pos x)%nat then None
                  else repeat_matcher m ps fuel (pred min) (pred <$> max) g y c)
          = m (clear_caps ps x)
            (λ y, if (min =? 0)%nat && (m_pos y =? m_pos x)%nat then None
                  else repeat_matcher m ps fuel' (pred min) (pred <$> max) g y c))
    as Hiter.
  { apply Hm. intros y [Hpos Hlen]. cbn [clear_caps m_pos m_rest] in *.
    destruct (min =? 0)%nat eqn:Emin; cbn [andb].
    - apply Nat.eqb_eq in Emin. subst min.
      destruct (m_pos y =? m_pos x)%nat eqn:Epos; [done|].
      apply Nat.eqb_neq in Epos. apply IH; cbn; lia.
    - apply Nat.eqb_neq in Emin. apply IH; lia. }
  by rewrite Hiter.
Qed.

(** The fuel given to a repetition does not matter once it exceeds
    min + remaining length: the fuel [rmatch] supplies is never exhausted. *)
Lemma rep_fuel_irrelevant ic r min max g x c fuel :
  (min + length (m_rest x) < fuel)%nat →
  rmatch ic (Rep r min max g) x c
  = repeat_matcher (rmatch ic r) (parens_of r) fuel min max g x c.
Proof.
  intros Hfuel. cbn [rmatch]. apply repeat_matcher_fuel; [apply rmatch_local|lia|done].
Qed.

(** A successful match hands its continuation a later state of the same
    input. *)
Lemma repeat_matcher_result m ps fuel min max g x c z :
  (∀ x c z, m x c = Some z → ∃ y, wf_step x y ∧ c y = Some z) →
  repeat_matcher m ps fuel min max g x c = Some z →
  ∃ y, wf_step x y ∧ c y = Some z.
Proof.
  intros Hm. revert min max x. induction fuel as [|fuel IH]; intros min max x.
  - cbn. destruct max as [[|?]|]; [|done..]. intros H. exists x.
    split; [apply wf_step_refl|done].
  - cbn [repeat_matcher].
    assert (m (clear_caps ps x)
              (λ y, if (min =? 0)%nat && (m_pos y =? m_pos x)%nat then None
                    else repeat_matcher m ps fuel (pred min) (pred <$> max) g y c)
            = Some z → ∃ y, wf_step x y ∧ c y = Some z) as Hiter.
    { intros H. apply Hm in H as (y & Hy & H). destruct (_ && _); [done|].
      apply IH in H as (y' & Hy' & H). exists y'. split; [|done].
      by apply (wf_step_trans x y y'). }
    assert (c x = Some z → ∃ y, wf_step x y ∧ c y = Some z) as Hstop.
    { intros H. exists x. split; [apply wf_step_refl|done]. }
    destruct max as [[|k]|]; [exact Hstop|..];
      (destruct (negb (min =? 0)%nat); [exact Hiter|]);
      destruct (negb g).
    + destruct (c x) eqn:E; [intros [= <-]; by apply Hstop|exact Hiter].
    + destruct (m _ _) eqn:E; [intros [= <-]; by apply Hiter|exact Hstop].
    + destruct (c x) eqn:E; [intros [= <-]; by apply Hstop|exact Hiter].
    + destruct (m _ _) eqn:E; [intros [= <-]; by apply Hiter|exact Hstop].
Qed.

Lemma rmatch_result ic r x c z :
  rmatch ic r x c = Some z → ∃ y, wf_step x y ∧ c y = Some z.
Proof.
  revert x c z.
  induction r as [|a|r1 IH1 r2 IH2|r1 IH1 r2 IH2|r IH min max g|i r IH| |];
    intros x c z; cbn [rmatch].
  - intros H. exists x. split; [apply wf_step_refl|done].
  - destruct (m_rest x) as [|ch rest] eqn:E; [done|].
    destruct (cset_match ic a ch); [|done]. intros H. eexists. split; [|exact H].
    unfold wf_step. rewrite E. cbn. lia.
  - intros H. apply IH1 in H as (y & Hy & H). apply IH2 in H as (y' & Hy' & H).
    exists y'. split; [by apply (wf_step_trans x y y')|done].
  - destruct (rmatch ic r1 x c) eqn:E; [intros [= <-]; by apply IH1|apply IH2].
  - apply repeat_matcher_result. exact IH.
  - intros H. apply IH in H as (y & Hy & H). eexists. split; [|exact H]. exact Hy.
  - destruct (m_pos x =? 0)%nat; [|done]. intros H. exists x.
    split; [apply wf_step_refl|done].
  - destruct (m_rest x); [|done]. intros H. exists x.
    split; [apply wf_step_refl|done].
Qed.


Lemma rmatch_seq ic r1 r2 x c :
  rmatch ic (Seq r1 r2) x c = rmatch ic r1 x (λ y, rmatch ic r2 y c).
Proof. reflexivity. Qed.

Lemma rmatch_group ic i r x c :
  rmatch ic (Group i r) x c
  = rmatch ic r x (λ y, c (set_cap i (take (m_pos y - m_pos x) (m_rest x)) y)).
Proof. reflexivity. Qed.

Lemma rmatch_atom ic a x c :
  rmatch ic (Atom a) x c
  = match m_rest x with
    | ch :: rest => if cset_match ic a ch
                    then c (MState (S (m_pos x)) rest (m_caps x)) else None
    | [] => None
    end.
Proof. reflexivity. Qed.





(** [search] answers with a start index at which the pattern matches. *)
Lemma search_sound re pos rest i y :
  search re pos rest = Some (i, y) →
  ∃ k, i = (pos + k)%nat ∧ (k ≤ length rest)%nat
       ∧ rmatch (re_ignoreCase re) (re_pattern re)
           (MState i (drop k rest) ∅) Some = Some y.
Proof.
  revert pos. induction rest as [|ch rest IH]; intros pos; cbn [search].
  - destruct (rmatch _ _ _ _) as [y'|] eqn:E; [|done]. intros [= <- <-].
    exists 0%nat. rewrite Nat.add_0_r. by repeat split.
  - destruct (rmatch _ _ _ _) as [y'|] eqn:E.
    + intros [= <- <-]. exists 0%nat. rewrite Nat.add_0_r. split; [done|].
      split; [lia|done].
    + intros H. apply IH in H as (k & -> & Hk & H). exists (S k).
      split; [lia|]. split; [cbn; lia|]. cbn [drop].
      by replace (pos + S k)%nat with (S pos + k)%nat by lia.
Qed.

(** [search] finds a match whenever the pattern matches at some index. *)
Lemma search_complete re pos rest k y :
  (k ≤ length rest)%nat →
  rmatch (re_ignoreCase re) (re_pattern re)
    (MState (pos + k) (drop k rest) ∅) Some = Some y →
  is_Some (search re pos rest).
Proof.
  revert pos rest. induction k as [|k IH]; intros pos rest Hk H.
  - rewrite Nat.add_0_r, drop_0 in H. destruct rest; cbn [search]; by rewrite H.
  - destruct rest as [|ch rest]; [cbn in Hk; lia|]. cbn [search].
    destruct (rmatch _ _ (MState pos _ _) _); [done|].
    apply (IH (S pos) rest); [cbn in Hk; lia|].
    cbn [drop] in H. by replace (S pos + k)%nat with (pos + S k)%nat by lia.
Qed.

Lemma search_result re pos rest i y :
  search re pos rest = Some (i, y) →
  (pos ≤ i)%nat ∧ (i ≤ m_pos y)%nat
  ∧ (m_pos y + length (m_rest y) = pos + length rest)%nat.
Proof.
  intros H. apply search_sound in H as (k & -> & Hk & H).
  apply rmatch_result in H as (y' & [Hpos Hlen] & [= ->]).
  cbn [m_pos m_rest] in *. rewrite length_drop in Hlen. lia.
Qed.

(** Every round of a global replace shortens the input left to scan, so
    the fuel [string_replace] supplies is never exhausted. *)
Lemma replace_all_fuel re target fuel fuel' pos rest :
  (length rest < fuel)%nat → (length rest < fuel')%nat →
  replace_all fuel re target pos rest = replace_all fuel' re target pos rest.
Proof.
  revert fuel' pos rest. induction fuel as [|fuel IH]; intros fuel' pos rest Hf Hf';
    [lia|].
  destruct fuel' as [|fuel']; [lia|]. cbn [replace_all].
  destruct (search re pos rest) as [[i y]|] eqn:E; [|done].
  apply search_result in E as (Hi & Hy & Hlen). do 2 f_equal.
  destruct (m_pos y =? i)%nat eqn:Ei.
  - destruct (m_rest y) as [|ch rest'] eqn:Ey; [done|]. f_equal.
    cbn in Hlen. apply IH; lia.
  - apply Nat.eqb_neq in Ei. apply IH; lia.
Qed.




(** ** The metadata filter *)

Module FilterFacts.
  Import MetadataFilter FilterSpec.

Lemma createFilters_get_prop filterSet field :
  createFilters (get_prop filterSet field) = normalize_spec (filterSet !! field).
Proof.
  unfold get_prop. destruct (filterSet !! field) as [[]|]; reflexivity.
Qed.

Lemma createMergedFilters_lookup filterSet field :
  field ∈ fields →
  createMergedFilters filterSet !! field
  = Some (createFilters (get_prop filterSet field)
            ++ createFilters (get_prop filterSet "all")).
Proof.
  unfold fields, createMergedFilters. rewrite !elem_of_cons, elem_of_nil.
  intros [->|[->|[->|[]]]]; cbn [foldl]; by simplify_map_eq.
Qed.

Lemma strict_eq_spec a b : b ≠ JNaN → strict_eq a b = true ↔ a = b.
Proof.
  intros Hb. unfold strict_eq.
  destruct a, b; try congruence; rewrite ?bool_decide_eq_true; try done.
Qed.

Lemma trim_start_idem s : trim_start (trim_start s) = trim_start s.
Proof.
  induction s as [|c s IH]; [done|]. cbn.
  destruct (is_space c) eqn:E; [done|]. cbn. by rewrite E.
Qed.

Lemma trim_end_idem s : trim_end (trim_end s) = trim_end s.
Proof.
  induction s as [|c s IH]; [done|]. cbn.
  destruct (trim_end s) as [|d t] eqn:E.
  - destruct (is_space c) eqn:Ec; cbn; by rewrite ?Ec.
  - cbn [trim_end] in *. by rewrite IH.
Qed.

Lemma trim_start_end s : trim_start (trim_end s) = trim_end (trim_start s).
Proof.
  induction s as [|c s IH]; [done|]. cbn [trim_start trim_end].
  destruct (is_space c) eqn:Ec.
  - rewrite <- IH. destruct (trim_end s) as [|d t]; [done|].
    cbn [trim_start]. by rewrite Ec.
  - cbn [trim_end]. destruct (trim_end s) as [|d t]; cbn [trim_start]; by rewrite Ec.
Qed.

Lemma string_trim_idem s : string_trim (string_trim s) = string_trim s.
Proof.
  unfold string_trim. by rewrite trim_start_end, trim_end_idem, trim_start_idem.
Qed.

Lemma no_data_spec text :
  strict_eq text JNull || strict_eq text (JStr []) = true
  ↔ text = JNull ∨ text = JStr [].
Proof.
  rewrite orb_true_iff, !strict_eq_spec by done. reflexivity.
Qed.

Lemma filterField_no_data text filters l :
  text = JNull ∨ text = JStr [] → filterField text filters l = (l, Ok text).
Proof. by intros [->| ->]. Qed.

Lemma filterField_chain text filters :
  text ≠ JNull → text ≠ JStr [] → filterField text filters = forEach filters text.
Proof.
  intros H1 H2. unfold filterField.
  destruct (strict_eq text JNull || strict_eq text (JStr [])) eqn:E; [|done].
  apply no_data_spec in E. tauto.
Qed.

Lemma forEach_cons filter rest text l :
  forEach (filter :: rest) text l
  = match invoke filter text l with
    | (l', Ok text') => forEach rest text' l'
    | (l', Throw e) => (l', Throw e)
    end.
Proof. reflexivity. Qed.

Lemma forEach_app pre post text l :
  forEach (pre ++ post) text l
  = match forEach pre text l with
    | (l', Ok text') => forEach post text' l'
    | (l', Throw e) => (l', Throw e)
    end.
Proof.
  revert text l. induction pre as [|f pre IH]; intros text l; [done|].
  rewrite <- app_comm_cons, !forEach_cons.
  destruct (invoke f text l) as [l' [v|e]]; [apply IH|done].
Qed.

Lemma forEach_log_extends filters text l :
  ∃ l', (forEach filters text l).1 = l ++ l'.
Proof.
  revert text l. induction filters as [|f rest IH]; intros text l.
  - exists []. cbn. by rewrite app_nil_r.
  - rewrite forEach_cons. destruct f as [f|?|?|]; cbn;
      try (exists []; by rewrite app_nil_r).
    destruct (f text) as [v|e]; cbn.
    + destruct (IH v (l ++ [text])) as [l' ->]. exists (text :: l').
      by rewrite <- app_assoc.
    + by exists [text].
Qed.

Lemma forEach_first_call f rest text l :
  ∃ l' r, forEach (EFun f :: rest) text l = (l ++ text :: l', r).
Proof.
  rewrite forEach_cons. cbn. destruct (f text) as [v|e].
  - destruct (forEach_log_extends rest v (l ++ [text])) as [l' Hl'].
    destruct (forEach rest v (l ++ [text])) as [l1 r] eqn:E. cbn in Hl'. subst l1.
    exists l', r. by rewrite <- app_assoc.
  - by exists [], (Throw e).
Qed.

Lemma forEach_returns filters text l l1 r :
  forEach filters text l = (l1, Ok r) →
  ∃ args, l1 = l ++ args ∧ length args = length filters ∧
    default r (args !! 0%nat) = text ∧
    ∀ i e, filters !! i = Some e →
      ∃ f v, e = EFun f ∧ args !! i = Some v ∧ f v = Ok (default r (args !! S i)).
Proof.
  revert text l. induction filters as [|e rest IH]; intros text l.
  - cbn. intros [= <- <-]. exists []. rewrite app_nil_r. by repeat split.
  - rewrite forEach_cons. destruct e as [f|?|?|]; cbn; try done.
    destruct (f text) as [v|?] eqn:Ef; [|done]. intros Hrest.
    destruct (IH _ _ Hrest) as (args & -> & Hlen & Hhd & Hall).
    exists (text :: args). rewrite <- app_assoc. repeat split; cbn; [by rewrite Hlen|].
    intros [|i] e.
    + intros [= <-]. exists f, text. repeat split.
      rewrite Ef. f_equal. symmetry. exact Hhd.
    + apply Hall.
Qed.

Lemma forEach_fault pre f post text partial e l l' :
  forEach pre text l = (l', Ok partial) → f partial = Throw e →
  forEach (pre ++ EFun f :: post) text l = (l' ++ [partial], Throw e).
Proof.
  intros Hpre Hf. rewrite forEach_app, Hpre, forEach_cons. cbn. by rewrite Hf.
Qed.

Lemma forEach_trim_result filters text l :
  Forall (λ e, e = EFun trim) filters →
  (forEach filters text l).2
  = match filters, text with
    | [], _ => Ok text
    | _, JStr s => Ok (JStr (string_trim s))
    | _, _ => Throw TypeError
    end.
Proof.
  intros H. revert text l. induction H as [|e rest -> _ IH]; intros text l; [done|].
  rewrite forEach_cons. cbn. destruct text as [| | | | |s]; try done. cbn.
  rewrite IH. destruct rest; [done|]. by rewrite string_trim_idem.
Qed.

(** C2: compiling a configuration never fails and, for each of the fields
    artist, track and album, the compiled list is the normalized
    field-specific entry followed by the normalized [all] entry, where
    normalizing maps a single function to a one-element list, passes an array
    through unchanged and maps any other entry (absent or of another shape)
    to the empty list. [createMergedFilters] is a total function on
    configuration objects; [normalize_spec] is the normalization in the
    words of the specification. *)
Theorem createMergedFilters_normalizes (filterSet : gmap string entry)
    (field : string) :
  field ∈ fields →
  createMergedFilters filterSet !! field
  = Some (normalize_spec (filterSet !! field)
            ++ normalize_spec (filterSet !! "all")).
Proof.
  intros Hfield. rewrite createMergedFilters_lookup by done.
  by rewrite !createFilters_get_prop.
Qed.

Lemma createMergedFilters_normalizes_witness :
  createMergedFilters sample_filterSet !! "track"
  = Some [EFun youtube; EFun removeRemastered; EFun trim]
  ∧ createMergedFilters sample_filterSet !! "album" = Some [EFun trim]
  ∧ createMergedFilters sample_filterSet !! "artist" = Some [EFun trim].
Proof.
  split; [|split].
  - rewrite (createMergedFilters_normalizes sample_filterSet "track");
      [reflexivity | unfold fields; repeat constructor].
  - rewrite (createMergedFilters_normalizes sample_filterSet "album");
      [reflexivity | unfold fields; repeat constructor].
  - rewrite (createMergedFilters_normalizes sample_filterSet "artist");
      [reflexivity | unfold fields; repeat constructor].
Defined.

(** C3: for every compiled filter set and each of the three field filters,
    filtering null gives null and filtering the empty string gives the empty
    string, and no filter function is invoked: the log of invocations comes
    back as it went in. *)
Theorem filter_identity_on_no_data (mf : t) (text : jsval) (l : log) :
  text = JNull ∨ text = JStr [] →
  filterArtist mf text l = (l, Ok text)
  ∧ filterTrack mf text l = (l, Ok text)
  ∧ filterAlbum mf text l = (l, Ok text).
Proof.
  intros Htext. unfold filterArtist, filterTrack, filterAlbum, filterBy.
  split; [|split].
  all: match goal with |- context [mergedFilterSet ?m !! ?f] =>
         destruct (mergedFilterSet m !! f) end.
  all: try by apply filterField_no_data.
  all: by destruct Htext as [-> | ->].
Qed.

Lemma filter_identity_on_no_data_witness :
  run (filterTrack getYoutubeFilter JNull) = ([], Ok JNull)
  ∧ run (filterTrack getYoutubeFilter (JStr [])) = ([], Ok (JStr [])).
Proof.
  split.
  - apply (filter_identity_on_no_data getYoutubeFilter JNull []). by left.
  - apply (filter_identity_on_no_data getYoutubeFilter (JStr []) []). by right.
Defined.

(** C8 fails on the code: with the filters trim, a faulting filter and trim
    again, the call on " a " ends in the fault itself after two invocations;
    the partially filtered "a" is not returned. *)
Lemma returns_partial_on_fault_counterexample :
  run (filterField (JStr (str " a ")) [EFun trim; EFun faulty; EFun trim])
  = ([JStr (str " a "); JStr (str "a")], Throw (Thrown (JStr (str "fault"))))
  ∧ ¬ returns_partial_on_fault.
Proof.
  split; [reflexivity|]. intros H.
  specialize (H [EFun trim] [EFun trim] faulty (JStr (str " a ")) (JStr (str "a"))
                (Thrown (JStr (str "fault"))) [] [JStr (str " a ")]).
  discriminate H; done.
Qed.

(** C8, amended: when a filter function faults, the remaining filters of the
    field are not invoked and the fault propagates to the caller of the
    field filter; the log holds the invocations up to and including the
    faulting one, and no partially filtered string is returned. *)
Theorem filterField_propagates_fault (pre post : list entry) (f : filterfn)
    (text partial : jsval) (e : exn) (l l' : log) :
  text ≠ JNull → text ≠ JStr [] →
  forEach pre text l = (l', Ok partial) → f partial = Throw e →
  filterField text (pre ++ EFun f :: post) l = (l' ++ [partial], Throw e).
Proof.
  intros H1 H2 Hpre Hf. rewrite filterField_chain by done.
  by apply forEach_fault.
Qed.

Lemma filterField_propagates_fault_witness :
  filterField (JStr (str " a ")) ([EFun trim] ++ EFun faulty :: [EFun trim]) []
  = ([JStr (str " a ")] ++ [JStr (str "a")], Throw (Thrown (JStr (str "fault")))).
Proof.
  apply (filterField_propagates_fault [EFun trim] [EFun trim] faulty);
    [discriminate | discriminate | reflexivity | reflexivity].
Defined.

(** C9: trim is idempotent on every string, and therefore a field filter
    whose compiled list consists of trim only gives, applied to its own
    result, the same outcome as applied once, for every field and every
    input value. *)
Theorem trim_idempotent :
  (∀ x : jsstring, string_trim (string_trim x) = string_trim x)
  ∧ ∀ (mf : t) (field : string) (filters : list entry) (text : jsval),
      mergedFilterSet mf !! field = Some filters →
      Forall (λ e, e = EFun trim) filters →
      (run (filterBy field mf text ≫= filterBy field mf)).2
      = (run (filterBy field mf text)).2.
Proof.
  split; [apply string_trim_idem|].
  intros mf field filters text Hlook Htrim.
  unfold run, mbind, Eff_bind, filterBy. rewrite Hlook.
  destruct (decide (text = JNull ∨ text = JStr [])) as [Hnd|Hnd].
  { rewrite (filterField_no_data text filters [] Hnd). cbn.
    by rewrite filterField_no_data. }
  rewrite filterField_chain by tauto.
  pose proof (forEach_trim_result filters text [] Htrim) as Hres.
  destruct (forEach filters text []) as [l1 [v|e]]; cbn in Hres |- *; [|done].
  destruct (decide (v = JNull ∨ v = JStr [])) as [Hv|Hv].
  { by rewrite filterField_no_data. }
  rewrite filterField_chain by tauto.
  rewrite (forEach_trim_result filters v l1 Htrim).
  destruct filters as [|e0 rest]; [done|].
  destruct text; try done. injection Hres as ->. by rewrite string_trim_idem.
Qed.

Lemma trim_idempotent_witness :
  (run (filterBy "artist" getTrimFilter (JStr (str "  a b  "))
        ≫= filterBy "artist" getTrimFilter)).2
  = (run (filterBy "artist" getTrimFilter (JStr (str "  a b  ")))).2.
Proof.
  apply (proj2 trim_idempotent getTrimFilter "artist" [EFun trim]).
  - reflexivity.
  - repeat constructor.
Defined.

Lemma chain_cons f fs text v args r :
  chain (f :: fs) text (v :: args) r →
  v = text ∧ f text = Ok (default r (args !! 0%nat))
  ∧ chain fs (default r (args !! 0%nat)) args r.
Proof.
  intros (Hlen & Hhd & Hall). cbn in Hhd. subst v.
  split; [done|]. split; [by apply (Hall 0%nat)|].
  split; [by injection Hlen|]. split; [done|].
  intros i g w Hg Hw. by apply (Hall (S i)).
Qed.

Lemma forEach_chain fs text args r l :
  chain fs text args r → forEach (EFun <$> fs) text l = (l ++ args, Ok r).
Proof.
  revert text args l. induction fs as [|f fs IH]; intros text args l Hc.
  - destruct Hc as (Hlen & Hhd & _). destruct args; [|done]. cbn in Hhd.
    subst r. cbn. by rewrite app_nil_r.
  - destruct args as [|v args]; [by destruct Hc|].
    apply chain_cons in Hc as (-> & Hf & Hc).
    rewrite fmap_cons, forEach_cons. cbn [invoke]. rewrite Hf.
    rewrite (IH _ _ _ Hc). by rewrite <- app_assoc.
Qed.

Lemma forEach_chain_fault pre f post text args v e l :
  chain pre text args v → f v = Throw e →
  forEach (EFun <$> (pre ++ f :: post)) text l = (l ++ args ++ [v], Throw e).
Proof.
  intros Hc Hf. rewrite fmap_app, fmap_cons.
  rewrite (forEach_fault _ f _ text v e l (l ++ args)); [|by apply forEach_chain|done].
  by rewrite <- app_assoc.
Qed.

(** C10 fails on the code as worded: the track filter of the Youtube preset
    has the two compiled functions youtube and trim, and on undefined it
    invokes youtube only, whose fault ends the call; trim is never
    invoked. *)
Lemma invokes_every_filter_counterexample :
  mergedFilterSet getYoutubeFilter !! "track" = Some (EFun <$> [youtube; trim])
  ∧ run (filterTrack getYoutubeFilter JUndefined) = ([JUndefined], Throw TypeError)
  ∧ ¬ invokes_every_filter.
Proof.
  split; [reflexivity|]. split; [reflexivity|]. intros H.
  specialize (H getYoutubeFilter "track" [youtube; trim] JUndefined []).
  discriminate H; [unfold fields; repeat constructor|reflexivity|done|done].
Qed.

(** C10, amended: the field filter returns its input untouched without
    invoking anything exactly when the input is null or the empty string
    (first part, for a list that starts with a function). For every other
    value, undefined included, it invokes the compiled filter functions in
    order, each on the result of the one before, until one faults: when the
    functions take the value through to a result, every one of them is
    invoked and that result is returned; when one of them faults, those
    after it are not invoked and the fault propagates; and a call that
    returns has invoked every compiled filter (second part). With each of
    the predefined filters an undefined value reaches the filter, which
    faults on it with a TypeError (third part). *)
Theorem filterField_invokes_until_fault :
  (∀ (text : jsval) (f : filterfn) (rest : list entry) (l : log),
      (filterField text (EFun f :: rest) l).1 = l ↔ text = JNull ∨ text = JStr [])
  ∧ (∀ text : jsval, text ≠ JNull → text ≠ JStr [] →
      (∀ (fs : list filterfn) (args : list jsval) (r : jsval) (l : log),
          chain fs text args r →
          filterField text (EFun <$> fs) l = (l ++ args, Ok r))
      ∧ (∀ (pre post : list filterfn) (f : filterfn) (args : list jsval)
           (v : jsval) (e : exn) (l : log),
          chain pre text args v → f v = Throw e →
          filterField text (EFun <$> (pre ++ f :: post)) l
          = (l ++ args ++ [v], Throw e))
      ∧ (∀ (filters : list entry) (l l1 : log) (r : jsval),
          filterField text filters l = (l1, Ok r) →
          ∃ args, l1 = l ++ args ∧ length args = length filters ∧
            default r (args !! 0%nat) = text ∧
            ∀ i e, filters !! i = Some e →
              ∃ f v, e = EFun f ∧ args !! i = Some v ∧
                     f v = Ok (default r (args !! S i))))
  ∧ (∀ f : filterfn,
      f ∈ [trim; removeZeroWidth; decodeHtmlEntities; youtube; removeRemastered] →
      run (filterField JUndefined [EFun f]) = ([JUndefined], Throw TypeError)).
Proof.
  split; [|split].
  - intros text f rest l. split.
    + intros Hlog. destruct (decide (text = JNull ∨ text = JStr [])) as [|Hnd]; [done|].
      exfalso. rewrite filterField_chain in Hlog by tauto.
      destruct (forEach_first_call f rest text l) as (l' & r & E).
      rewrite E in Hlog. cbn in Hlog. apply (f_equal length) in Hlog.
      rewrite length_app in Hlog. cbn in Hlog. lia.
    + intros Hnd. by rewrite filterField_no_data.
  - intros text H1 H2. split; [|split].
    + intros fs args r l Hc. rewrite filterField_chain by done.
      by apply forEach_chain.
    + intros pre post f args v e l Hc Hf. rewrite filterField_chain by done.
      by apply forEach_chain_fault.
    + intros filters l l1 r. rewrite filterField_chain by done.
      apply forEach_returns.
  - intros f Hf. rewrite !elem_of_cons, elem_of_nil in Hf.
    destruct Hf as [->|[->|[->|[->|[->|[]]]]]]; reflexivity.
Qed.

Lemma filterField_invokes_until_fault_witness :
  filterField (JStr (str " a ")) (EFun <$> [trim; removeRemastered]) []
  = ([] ++ [JStr (str " a "); JStr (str "a")], Ok (JStr (str "a")))
  ∧ filterField JUndefined (EFun <$> ([] ++ youtube :: [trim])) []
    = ([] ++ [] ++ [JUndefined], Throw TypeError).
Proof.
  split.
  - apply (proj1 (proj2 filterField_invokes_until_fault) (JStr (str " a ")));
      [discriminate|discriminate|].
    split; [reflexivity|]. split; [reflexivity|].
    intros [|[|i]] f v Hf Hv; [| |discriminate Hf];
      injection Hf as <-; injection Hv as <-; reflexivity.
  - apply (proj1 (proj2 (proj1 (proj2 filterField_invokes_until_fault)
                    JUndefined ltac:(discriminate) ltac:(discriminate))));
      [|reflexivity].
    split; [reflexivity|]. split; [reflexivity|]. intros i f v Hf. discriminate Hf.
Defined.

(** C5: the YouTube (noise) preset, applied to the track
    "Rick Astley - Never Gonna Give You Up (Official Music Video)", returns
    "Rick Astley - Never Gonna Give You Up"; the log shows the two filters
    of the track field, [youtube] then [trim], and their arguments. *)
Theorem youtube_filter_example :
  run (filterTrack getYoutubeFilter
         (JStr (str "Rick Astley - Never Gonna Give You Up (Official Music Video)")))
  = ([JStr (str "Rick Astley - Never Gonna Give You Up (Official Music Video)");
      JStr (str "Rick Astley - Never Gonna Give You Up")],
     Ok (JStr (str "Rick Astley - Never Gonna Give You Up"))).
Proof. vm_compute. reflexivity. Qed.

(** C7: the remastered preset, applied to the track
    "Let It Be (Remastered 2009)", returns "Let It Be": [removeRemastered]
    runs first and leaves "Let It Be " with a trailing space, which the
    [trim] of the [all] entry then removes. *)
Theorem remastered_filter_example :
  run (filterTrack getRemasteredFilter (JStr (str "Let It Be (Remastered 2009)")))
  = ([JStr (str "Let It Be (Remastered 2009)"); JStr (str "Let It Be ")],
     Ok (JStr (str "Let It Be")))
  ∧ removeRemastered (JStr (str "Let It Be (Remastered 2009)"))
    = Ok (JStr (str "Let It Be ")).
Proof. split; vm_compute; reflexivity. Qed.

End FilterFacts.

(** ** The YouTube connector *)

Module YoutubeFacts.
  Import Youtube YoutubeSpec.

Lemma observer_callback_on_surface offscreen flag doc :
  offscreen doc = false →
  observer_callback offscreen flag doc
  = (true, if flag then [] else [AttachTimeupdate (el_id <$> doc videoSelector)]).
Proof. intros H. unfold observer_callback. rewrite H. by destruct flag. Qed.

Lemma observer_callback_off_surface offscreen flag doc :
  offscreen doc = true →
  observer_callback offscreen flag doc = (flag, [StateChanged]).
Proof. intros H. unfold observer_callback. by rewrite H. Qed.

Lemma observe_cons offscreen flag doc rest :
  observe offscreen flag (doc :: rest)
  = ((observe offscreen (observer_callback offscreen flag doc).1 rest).1,
     (observer_callback offscreen flag doc).2
       :: (observe offscreen (observer_callback offscreen flag doc).1 rest).2).
Proof.
  cbn [observe]. destruct (observer_callback offscreen flag doc) as [f acts].
  cbn [fst snd]. destruct (observe offscreen f rest). reflexivity.
Qed.

Lemma observe_attached_never_attaches offscreen mutations :
  count_actions is_attach (observe offscreen true mutations).2 = 0%nat.
Proof.
  induction mutations as [|doc rest IH]; [done|].
  rewrite observe_cons. unfold count_actions in *. cbn [snd concat].
  rewrite filter_app, length_app.
  destruct (offscreen doc) eqn:E.
  - rewrite observer_callback_off_surface by done. cbn [fst snd]. by rewrite IH.
  - rewrite observer_callback_on_surface by done. cbn [fst snd]. by rewrite IH.
Qed.

Lemma observe_attaches_at_most_once offscreen flag mutations :
  (count_actions is_attach (observe offscreen flag mutations).2 ≤ 1)%nat.
Proof.
  revert flag. induction mutations as [|doc rest IH]; intros flag; [cbn; lia|].
  rewrite observe_cons. unfold count_actions in *. cbn [snd concat].
  rewrite filter_app, length_app.
  destruct (offscreen doc) eqn:E.
  - rewrite observer_callback_off_surface by done. cbn [fst snd]. apply (IH flag).
  - rewrite observer_callback_on_surface by done. cbn [fst snd].
    pose proof (observe_attached_never_attaches offscreen rest) as H0.
    unfold count_actions in H0. rewrite H0. destruct flag; [cbn; lia|].
    rewrite filter_cons_True by done. cbn. lia.
Qed.

(** C1: started with the flag unset and fed four mutations that are
    on-surface, on-surface, off-surface and on-surface, the observer attaches
    the timeupdate listener exactly once, on the first mutation, and calls
    [onStateChanged] exactly once, on the third; the second and the fourth
    mutation do nothing.  More generally the listener is attached at most
    once in any run from any state, and an on-surface mutation while the
    flag is set does nothing. *)
Theorem observer_four_mutations (offscreen : document → bool)
    (d1 d2 d3 d4 : document) :
  offscreen d1 = false → offscreen d2 = false →
  offscreen d3 = true → offscreen d4 = false →
  setupMutationObserver offscreen [d1; d2; d3; d4]
  = (true, [[AttachTimeupdate (el_id <$> d1 videoSelector)]; [];
            [StateChanged]; []])
  ∧ (∀ flag mutations,
       (count_actions is_attach (observe offscreen flag mutations).2 ≤ 1)%nat)
  ∧ (∀ doc, offscreen doc = false →
       observer_callback offscreen true doc = (true, [])).
Proof.
  intros H1 H2 H3 H4. split; [|split].
  - unfold setupMutationObserver. rewrite !observe_cons.
    rewrite (observer_callback_on_surface _ _ d1 H1). cbn [fst snd].
    rewrite (observer_callback_on_surface _ _ d2 H2). cbn [fst snd].
    rewrite (observer_callback_off_surface _ _ d3 H3). cbn [fst snd].
    rewrite (observer_callback_on_surface _ _ d4 H4). reflexivity.
  - apply observe_attaches_at_most_once.
  - intros doc H. by rewrite observer_callback_on_surface.
Qed.

Lemma observer_four_mutations_witness :
  setupMutationObserver isPlayerOffscreen_default
    [page 10 20; page 10 25; page (-500) 20; page 10 20]
  = (true, [[AttachTimeupdate [2%nat]]; []; [StateChanged]; []]).
Proof.
  apply (observer_four_mutations isPlayerOffscreen_default
           (page 10 20) (page 10 25) (page (-500) 20) (page 10 20));
    vm_compute; reflexivity.
Defined.

(** C6: when the player element of the off-screen predicate is not found,
    the predicate answers false, for the default player and for the Material
    player alike, and the observer callback takes its on-surface branch
    (it never signals a state change). *)
Theorem offscreen_fails_open (doc : document) :
  (doc "#player-api" = [] →
     isPlayerOffscreen_default doc = false
     ∧ ∀ flag, observer_callback isPlayerOffscreen_default flag doc
               = (true, if flag then []
                        else [AttachTimeupdate (el_id <$> doc videoSelector)]))
  ∧ (doc "#player-container" = [] →
     isPlayerOffscreen_material doc = false
     ∧ ∀ flag, observer_callback isPlayerOffscreen_material flag doc
               = (true, if flag then []
                        else [AttachTimeupdate (el_id <$> doc videoSelector)])).
Proof.
  split; intros Hnone.
  - assert (isPlayerOffscreen_default doc = false) as Hoff
      by (unfold isPlayerOffscreen_default; by rewrite Hnone).
    split; [done|]. intros flag. by apply observer_callback_on_surface.
  - assert (isPlayerOffscreen_material doc = false) as Hoff
      by (unfold isPlayerOffscreen_material; by rewrite Hnone).
    split; [done|]. intros flag. by apply observer_callback_on_surface.
Qed.

Lemma offscreen_fails_open_witness :
  isPlayerOffscreen_default blank_page = false
  ∧ isPlayerOffscreen_material blank_page = false.
Proof.
  split.
  - apply (proj1 (offscreen_fails_open blank_page)). reflexivity.
  - apply (proj2 (offscreen_fails_open blank_page)). reflexivity.
Defined.








End YoutubeFacts.

(** ** The matcher on repetitions of one character class *)

Lemma repeat_atom_run ic a g c fuel min x :
  (min + length (m_rest x) < fuel)%nat →
  repeat_matcher (rmatch ic (Atom a)) [] fuel min None g x c
  = atom_run ic a g c min (m_pos x) (m_caps x) (m_rest x).
Proof.
  destruct x as [pos rest caps]. cbn [m_pos m_rest m_caps].
  revert fuel min pos. induction rest as [|ch rest IH]; intros fuel min pos Hfuel;
    (destruct fuel as [|fuel]; [lia|]); cbn [repeat_matcher atom_run].
  - rewrite rmatch_atom. cbn [clear_caps foldr m_rest m_pos m_caps]. done.
  - rewrite rmatch_atom. cbn [clear_caps foldr m_rest m_pos m_caps].
    replace (S pos =? pos)%nat with false by (symmetry; apply Nat.eqb_neq; lia).
    rewrite andb_false_r. cbn [fmap option_fmap option_map].
    rewrite IH by (cbn [length] in Hfuel; lia). done.
Qed.

Lemma rmatch_rep_atom ic a g c min x :
  rmatch ic (Rep (Atom a) min None g) x c
  = atom_run ic a g c min (m_pos x) (m_caps x) (m_rest x).
Proof. cbn [rmatch parens_of]. apply repeat_atom_run. lia. Qed.

(** A greedy run takes every character it can when the continuation
    accepts the state right after them. *)
Lemma atom_run_greedy_max ic a c min pos caps run tail z :
  Forall (λ ch, cset_match ic a ch = true) run →
  (min ≤ length run)%nat →
  match tail with [] => True | ch :: _ => cset_match ic a ch = false end →
  c (MState (pos + length run) tail caps) = Some z →
  atom_run ic a true c min pos caps (run ++ tail) = Some z.
Proof.
  intros Hrun. revert min pos. induction Hrun as [|ch run Hch _ IH];
    intros min pos Hmin Htail Hc.
  - cbn [length] in *. assert (min = 0%nat) as -> by lia.
    rewrite Nat.add_0_r in Hc. cbn [app].
    destruct tail as [|ch tail]; cbn; [by rewrite Hc|]. by rewrite Htail, Hc.
  - cbn [app atom_run]. rewrite Hch.
    rewrite (IH (pred min) (S pos)); [by destruct (min =? 0)%nat| cbn in Hmin; lia
      | done |].
    rewrite <- Hc. f_equal. f_equal. cbn. lia.
Qed.

(** A run fails on an input whose first character the atom rejects, unless
    it may be empty. *)
Lemma atom_run_none ic a g c min pos caps rest :
  (0 < min)%nat →
  match rest with [] => True | ch :: _ => cset_match ic a ch = false end →
  atom_run ic a g c min pos caps rest = None.
Proof.
  intros Hmin Hrest. destruct min as [|min]; [lia|].
  destruct rest as [|ch rest]; cbn; [done|]. by rewrite Hrest.
Qed.

(** ** Patterns without a line-start assertion do not see what comes before *)

Lemma repeat_matcher_shift m ps k fuel min max g x c :
  local m →
  (∀ x c, m (shift k x) c = m x (λ y, c (shift k y))) →
  repeat_matcher m ps fuel min max g (shift k x) c
  = repeat_matcher m ps fuel min max g x (λ y, c (shift k y)).
Proof.
  intros Hloc Hm. revert min max x. induction fuel as [|fuel IH]; intros min max x.
  - cbn. by destruct max as [[|?]|].
  - cbn [repeat_matcher].
    assert (m (clear_caps ps (shift k x))
              (λ y, if (min =? 0)%nat && (m_pos y =? m_pos (shift k x))%nat
                    then None
                    else repeat_matcher m ps fuel (pred min) (pred <$> max) g y c)
            = m (clear_caps ps x)
                (λ y, if (min =? 0)%nat && (m_pos y =? m_pos x)%nat then None
                      else repeat_matcher m ps fuel (pred min) (pred <$> max) g y
                             (λ y, c (shift k y)))) as ->; [|done].
    change (clear_caps ps (shift k x)) with (shift k (clear_caps ps x)).
    rewrite Hm. apply Hloc. intros y _. cbn [shift m_pos].
    replace (m_pos y + k =? m_pos x + k)%nat with (m_pos y =? m_pos x)%nat
      by (destruct (Nat.eqb_spec (m_pos y) (m_pos x));
          symmetry; [apply Nat.eqb_eq|apply Nat.eqb_neq]; lia).
    destruct (_ && _); [done|]. apply IH.
Qed.

(** A pattern without [^] matches the same way wherever in the input it is
    tried. *)
Lemma rmatch_shift ic r k x c :
  no_bol r = true →
  rmatch ic r (shift k x) c = rmatch ic r x (λ y, c (shift k y)).
Proof.
  revert x c.
  induction r as [|a|r1 IH1 r2 IH2|r1 IH1 r2 IH2|r IH min max g|i r IH| |];
    intros x c Hr; cbn [rmatch no_bol] in *.
  - done.
  - cbn [shift m_rest m_pos m_caps]. destruct (m_rest x) as [|ch rest]; [done|].
    by destruct (cset_match ic a ch).
  - apply andb_true_iff in Hr as [H1 H2]. rewrite IH1 by done.
    apply rmatch_local. intros y _. by apply IH2.
  - apply andb_true_iff in Hr as [H1 H2]. by rewrite IH1, IH2.
  - cbn [shift m_rest]. apply repeat_matcher_shift; [apply rmatch_local|].
    intros x' c'. by apply IH.
  - rewrite IH by done. apply rmatch_local. intros y [Hpos _].
    unfold set_cap, shift. cbn [m_pos m_rest m_caps].
    by replace (m_pos y + k - (m_pos x + k))%nat with (m_pos y - m_pos x)%nat by lia.
  - done.
  - cbn [shift m_rest]. by destruct (m_rest x).
Qed.

Lemma repeat_matcher_map (h : mstate → mstate) m ps fuel min max g x c :
  local m →
  (∀ x c, m x (λ y, h <$> c y) = h <$> m x c) →
  repeat_matcher m ps fuel min max g x (λ y, h <$> c y)
  = h <$> repeat_matcher m ps fuel min max g x c.
Proof.
  intros Hloc Hm. revert min max x. induction fuel as [|fuel IH]; intros min max x.
  - cbn. by destruct max as [[|?]|].
  - cbn [repeat_matcher].
    assert (m (clear_caps ps x)
              (λ y, if (min =? 0)%nat && (m_pos y =? m_pos x)%nat then None
                    else repeat_matcher m ps fuel (pred min) (pred <$> max) g y
                           (λ y, h <$> c y))
            = h <$> m (clear_caps ps x)
                (λ y, if (min =? 0)%nat && (m_pos y =? m_pos x)%nat then None
                      else repeat_matcher m ps fuel (pred min) (pred <$> max) g y c))
      as ->.
    { rewrite <- Hm. apply Hloc. intros y _. destruct (_ && _); [done|]. apply IH. }
    destruct max as [[|n]|]; [done|..];
      destruct (negb (min =? 0)%nat), (negb g); try done;
      try (by destruct (c x)); by destruct (m _ _).
Qed.

(** The matcher passes on what the continuation answers. *)
Lemma rmatch_map (h : mstate → mstate) ic r x c :
  rmatch ic r x (λ y, h <$> c y) = h <$> rmatch ic r x c.
Proof.
  revert x c.
  induction r as [|a|r1 IH1 r2 IH2|r1 IH1 r2 IH2|r IH min max g|i r IH| |];
    intros x c; cbn [rmatch].
  - done.
  - destruct (m_rest x) as [|ch rest]; [done|]. by destruct (cset_match ic a ch).
  - rewrite <- IH1. apply rmatch_local. intros y _. apply IH2.
  - rewrite IH1, IH2. by destruct (rmatch ic r1 x c).
  - apply repeat_matcher_map; [apply rmatch_local|apply IH].
  - apply IH.
  - by destruct (m_pos x =? 0)%nat.
  - by destruct (m_rest x).
Qed.

Lemma search_shift re k pos rest :
  no_bol (re_pattern re) = true →
  search re (pos + k) rest
  = (λ '(i, y), ((i + k)%nat, shift k y)) <$> search re pos rest.
Proof.
  intros Hre. revert pos. induction rest as [|ch rest IH]; intros pos; cbn [search].
  - change (MState (pos + k) [] ∅) with (shift k (MState pos [] ∅)).
    rewrite rmatch_shift by done.
    rewrite (rmatch_map (shift k) _ _ _ Some).
    by destruct (rmatch _ _ (MState pos [] ∅) Some).
  - change (MState (pos + k) (ch :: rest) ∅)
      with (shift k (MState pos (ch :: rest) ∅)).
    rewrite rmatch_shift by done.
    rewrite (rmatch_map (shift k) _ _ _ Some).
    destruct (rmatch _ _ (MState pos (ch :: rest) ∅) Some); [done|].
    apply (IH (S pos)).
Qed.

Lemma replace_all_fn_fuel re f fuel fuel' pos rest :
  (length rest < fuel)%nat → (length rest < fuel')%nat →
  replace_all_fn fuel re f pos rest = replace_all_fn fuel' re f pos rest.
Proof.
  revert fuel' pos rest. induction fuel as [|fuel IH]; intros fuel' pos rest Hf Hf';
    [lia|].
  destruct fuel' as [|fuel']; [lia|]. cbn [replace_all_fn].
  destruct (search re pos rest) as [[i y]|] eqn:E; [|done].
  apply search_result in E as (Hi & Hy & Hlen). do 2 f_equal.
  destruct (m_pos y =? i)%nat eqn:Ei.
  - destruct (m_rest y) as [|ch rest'] eqn:Ey; [done|]. f_equal.
    cbn in Hlen. apply IH; lia.
  - apply Nat.eqb_neq in Ei. apply IH; lia.
Qed.

Lemma replace_all_fn_shift re f fuel k pos rest :
  no_bol (re_pattern re) = true →
  replace_all_fn fuel re f (pos + k) rest = replace_all_fn fuel re f pos rest.
Proof.
  intros Hre. revert pos rest. induction fuel as [|fuel IH]; intros pos rest; [done|].
  cbn [replace_all_fn]. rewrite search_shift by done.
  destruct (search re pos rest) as [[i y]|] eqn:E; [|done]. cbn.
  apply search_result in E as (Hi & Hy & Hlen).
  replace (i + k - (pos + k))%nat with (i - pos)%nat by lia.
  replace (m_pos y + k - (i + k))%nat with (m_pos y - i)%nat by lia.
  do 2 f_equal.
  replace (m_pos y + k =? i + k)%nat with (m_pos y =? i)%nat
    by (destruct (Nat.eqb_spec (m_pos y) i);
        symmetry; [apply Nat.eqb_eq|apply Nat.eqb_neq]; lia).
  destruct (m_pos y =? i)%nat.
  - destruct (m_rest y); [done|]. f_equal. apply (IH (S i)).
  - apply IH.
Qed.

Lemma replace_all_shift re target fuel k pos rest :
  no_bol (re_pattern re) = true →
  replace_all fuel re target (pos + k) rest = replace_all fuel re target pos rest.
Proof.
  intros Hre. revert pos rest. induction fuel as [|fuel IH]; intros pos rest; [done|].
  cbn [replace_all]. rewrite search_shift by done.
  destruct (search re pos rest) as [[i y]|] eqn:E; [|done]. cbn.
  replace (i + k - (pos + k))%nat with (i - pos)%nat by lia.
  do 2 f_equal.
  replace (m_pos y + k =? i + k)%nat with (m_pos y =? i)%nat
    by (destruct (Nat.eqb_spec (m_pos y) i);
        symmetry; [apply Nat.eqb_eq|apply Nat.eqb_neq]; lia).
  destruct (m_pos y =? i)%nat.
  - destruct (m_rest y); [done|]. f_equal. apply (IH (S i)).
  - apply IH.
Qed.

(** ** The predefined filters and rule sets *)

Module RuleFacts.
Import MetadataFilter FilterSpec FilterFacts RuleSpec.

Lemma search_atom ic a g pos rest :
  search (RegExp (Atom a) ic g) pos rest
  = match rest with
    | [] => None
    | ch :: rest' =>
        if cset_match ic a ch then Some (pos, MState (S pos) rest' ∅)
        else search (RegExp (Atom a) ic g) (S pos) rest'
    end.
Proof.
  destruct rest as [|ch rest]; cbn [search re_pattern re_ignoreCase rmatch m_rest];
    [done|]. cbn [m_pos m_caps]. by destruct (cset_match ic a ch).
Qed.

Lemma replace_all_S fuel re target pos rest :
  replace_all (S fuel) re target pos rest
  = match search re pos rest with
    | None => rest
    | Some (i, y) =>
        take (i - pos) rest ++ expand target (m_caps y) ++
          (if (m_pos y =? i)%nat then
             match m_rest y with
             | [] => []
             | ch :: rest' => ch :: replace_all fuel re target (S i) rest'
             end
           else replace_all fuel re target (m_pos y) (m_rest y))
    end.
Proof. reflexivity. Qed.

(** A global replace of single characters by nothing is a filter. *)
Lemma replace_all_atom ic a g fuel pos rest :
  (length rest < fuel)%nat →
  replace_all fuel (RegExp (Atom a) ic g) [] pos rest
  = filter (λ ch, cset_match ic a ch = false) rest.
Proof.
  revert fuel pos. induction rest as [|ch rest IH]; intros fuel pos Hfuel;
    (destruct fuel as [|fuel]; [lia|]).
  - done.
  - rewrite replace_all_S, search_atom.
    destruct (cset_match ic a ch) eqn:Ech.
    + cbn [m_pos m_rest m_caps expand flat_map app].
      rewrite Nat.sub_diag, take_0. cbn [app].
      replace (S pos =? pos)%nat with false by (symmetry; apply Nat.eqb_neq; lia).
      rewrite filter_cons_False by (rewrite Ech; done).
      apply IH. cbn in Hfuel. lia.
    + rewrite filter_cons_True by done.
      rewrite <- (IH (S fuel) (S pos)) by (cbn in Hfuel; lia).
      rewrite replace_all_S.
      destruct (search _ (S pos) rest) as [[i y]|] eqn:E; [|done].
      pose proof (search_result _ _ _ _ _ E) as (Hi & Hy & Hlen).
      replace (i - pos)%nat with (S (i - S pos)) by lia. cbn [take app].
      done.
Qed.

Lemma zero_width_class c :
  cset_match false (Class false [IRange 0x200B 0x200D; IChar 0xFEFF]) c = false
  ↔ ¬ zero_width c.
Proof.
  split.
  - intros H [->|[->|[->| ->]]]; vm_compute in H; done.
  - intros H. apply not_true_is_false. intros Ht. apply H. unfold zero_width.
    cbn [cset_match existsb citem_match xorb] in Ht.
    rewrite !orb_true_iff, andb_true_iff, !N.leb_le, N.eqb_eq in Ht. lia.
Qed.

(** X1: on a string, removeZeroWidth returns the string without its
    zero-width code units U+200B, U+200C, U+200D and U+FEFF, every other code
    unit kept in its place; the result holds none of them, and filtering it
    once more changes nothing. *)
Theorem removeZeroWidth_filters (s : jsstring) :
  removeZeroWidth (JStr s) = Ok (JStr (filter (λ c, ¬ zero_width c) s))
  ∧ Forall (λ c, ¬ zero_width c) (filter (λ c, ¬ zero_width c) s)
  ∧ removeZeroWidth (JStr (filter (λ c, ¬ zero_width c) s))
    = Ok (JStr (filter (λ c, ¬ zero_width c) s)).
Proof.
  assert (∀ s, removeZeroWidth (JStr s)
               = Ok (JStr (filter (λ c, ¬ zero_width c) s))) as H.
  { intros s'. unfold removeZeroWidth, string_replace, zero_width_re, cls.
    cbn [re_global]. rewrite replace_all_atom by lia. do 2 f_equal.
    apply list_filter_iff. intros c. apply zero_width_class. }
  split; [apply H|]. split.
  - apply Forall_forall. intros c Hc. by apply list_elem_of_filter in Hc as [? _].
  - rewrite H. do 2 f_equal. apply list_filter_filter_l. tauto.
Qed.

Lemma replace_all_fn_S fuel re f pos rest :
  replace_all_fn (S fuel) re f pos rest
  = match search re pos rest with
    | None => rest
    | Some (i, y) =>
        take (i - pos) rest
          ++ f (<[O := take (m_pos y - i) (drop (i - pos) rest)]> (m_caps y))
          ++ (if (m_pos y =? i)%nat then
                match m_rest y with
                | [] => []
                | ch :: rest' => ch :: replace_all_fn fuel re f (S i) rest'
                end
              else replace_all_fn fuel re f (m_pos y) (m_rest y))
    end.
Proof. reflexivity. Qed.

Lemma entity_no_match x :
  match m_rest x with ch :: _ => ch ≠ ampersand | [] => True end →
  rmatch false (re_pattern entity_re) x Some = None.
Proof.
  intros Hx. cbn [entity_re re_pattern cat foldl]. rewrite !rmatch_seq.
  unfold chr at 1. rewrite rmatch_atom. destruct (m_rest x) as [|ch rest]; [done|].
  cbn [cset_match citem_match].
  destruct (N.eqb_spec (N_of_ascii "&") ch) as [<-|]; [|done]. by destruct Hx.
Qed.

Lemma is_digit_match c : cset_match false (One IDigit) c = true ↔ is_digit c.
Proof.
  unfold is_digit. cbn [cset_match citem_match].
  rewrite andb_true_iff, !N.leb_le. done.
Qed.

Lemma entity_match pos ds post :
  ds ≠ [] → Forall is_digit ds →
  rmatch false (re_pattern entity_re)
    (MState pos (38 :: 35 :: ds ++ 59 :: post) ∅) Some
  = Some (MState (S (S pos) + length ds + 1) post {[1%nat := ds]}).
Proof.
  intros Hne Hds. cbn [entity_re re_pattern cat foldl]. rewrite !rmatch_seq.
  unfold chr at 1. rewrite rmatch_atom. cbn [m_rest m_pos m_caps].
  change (cset_match false (One (IChar (N_of_ascii "&"))) 38) with true. cbn match.
  unfold chr at 1. rewrite rmatch_atom. cbn [m_rest m_pos m_caps].
  change (cset_match false (One (IChar (N_of_ascii "#"))) 35) with true. cbn match.
  rewrite rmatch_group. unfold plus, digit. rewrite rmatch_rep_atom.
  cbn [m_rest m_pos m_caps].
  apply atom_run_greedy_max.
  - eapply Forall_impl; [exact Hds|]. intros c Hc. by apply is_digit_match.
  - destruct ds; [done|cbn; lia].
  - reflexivity.
  - unfold chr, set_cap. rewrite rmatch_atom. cbn [m_rest m_pos m_caps].
    change (cset_match false (One (IChar (N_of_ascii ";"))) 59) with true. cbn match.
    replace (S (S pos) + length ds - S (S pos))%nat with (length ds) by lia.
    rewrite take_app_length. do 2 f_equal. lia.
Qed.

Lemma entity_search_skip pos pre rest :
  Forall (λ c, c ≠ ampersand) pre →
  search entity_re pos (pre ++ rest) = search entity_re (pos + length pre) rest.
Proof.
  intros Hpre. revert pos. induction Hpre as [|ch pre Hch _ IH]; intros pos.
  - by rewrite Nat.add_0_r.
  - cbn [app search length]. rewrite entity_no_match by done.
    rewrite IH. f_equal. lia.
Qed.

Lemma entity_search_none pos s :
  Forall (λ c, c ≠ ampersand) s → search entity_re pos s = None.
Proof.
  intros Hs. rewrite <- (app_nil_r s), entity_search_skip by done.
  cbn [search]. by rewrite entity_no_match.
Qed.

Lemma round_double_small n : n < 2 ^ 53 → round_double n = Some n.
Proof.
  intros Hn. unfold round_double.
  destruct (N.leb_spec (N.size n) 53) as [|Hsize]; [done|]. exfalso.
  destruct (decide (n = 0)) as [->|Hn0]; [cbn in Hsize; lia|].
  rewrite N.size_log2 in Hsize by done.
  assert (N.log2 n < 53) by (apply N.log2_lt_pow2; lia). lia.
Qed.

(** X2: decodeHtmlEntities leaves a string without an ampersand as it is.
    In a string made of text without an ampersand, then an entity (ampersand,
    hash sign, one or more decimal digits, semicolon), then a rest, the
    entity is replaced by the one code unit that [String.fromCharCode] gives
    for the digits, and the rest is decoded in the same way. That code unit
    is the number modulo 65536 whenever the number is below 2^53, so that an
    entity above 65535 does not give its character. *)
Theorem decodeHtmlEntities_spec :
  (∀ s, Forall (λ c, c ≠ ampersand) s →
        decodeHtmlEntities (JStr s) = Ok (JStr s))
  ∧ (∀ pre ds post,
       Forall (λ c, c ≠ ampersand) pre → ds ≠ [] → Forall is_digit ds →
       ∃ r, decodeHtmlEntities (JStr post) = Ok (JStr r)
            ∧ decodeHtmlEntities (JStr (pre ++ str "&#" ++ ds ++ str ";" ++ post))
              = Ok (JStr (pre ++ fromCharCode ds ++ r)))
  ∧ (∀ ds, decimal_value ds < 2 ^ 53 →
           fromCharCode ds = [decimal_value ds mod 65536]).
Proof.
  split; [|split].
  - intros s Hs. unfold decodeHtmlEntities, string_replace_fn.
    cbn [entity_re re_global]. rewrite replace_all_fn_S.
    by rewrite (entity_search_none 0 s Hs).
  - intros pre ds post Hpre Hne Hds. eexists. split; [reflexivity|].
    unfold decodeHtmlEntities, string_replace_fn. cbn [entity_re re_global].
    do 2 f_equal. rewrite replace_all_fn_S.
    change (str "&#") with [38; 35]. change (str ";") with [59]. cbn [app].
    rewrite entity_search_skip by done. cbn [search].
    fold entity_re. rewrite entity_match by done.
    cbn [m_pos m_rest m_caps Nat.add].
    replace (length pre - 0)%nat with (length pre) by lia.
    rewrite take_app_length. f_equal.
    rewrite lookup_insert_ne, lookup_singleton_eq by done. cbn [default].
    f_equal.
    destruct (Nat.eqb_spec (S (S (length pre + length ds + 1))) (length pre));
      [lia|].
    rewrite (replace_all_fn_shift _ _ _ (S (S (length pre + length ds + 1))) 0)
      by done.
    apply replace_all_fn_fuel; rewrite ?length_app; cbn; rewrite ?length_app; cbn; lia.
  - intros ds Hds. unfold fromCharCode. by rewrite round_double_small.
Qed.

Lemma decodeHtmlEntities_spec_witness :
  ∃ r, decodeHtmlEntities (JStr (str "b")) = Ok (JStr r)
       ∧ decodeHtmlEntities (JStr (str "a" ++ str "&#" ++ str "38" ++ str ";" ++ str "b"))
         = Ok (JStr (str "a" ++ fromCharCode (str "38") ++ r)).
Proof.
  apply (proj1 (proj2 decodeHtmlEntities_spec) (str "a") (str "38") (str "b")).
  - repeat constructor. discriminate.
  - discriminate.
  - repeat constructor; vm_compute; discriminate.
Defined.

Lemma string_replace_cuts_end s data :
  cuts_end_only data = true →
  string_replace s (source data) (target data) `prefix_of` s.
Proof.
  destruct data as [[r ic g] tgt]. unfold cuts_end_only, string_replace.
  cbn [source target re_pattern re_global].
  destruct r as [| |r1 r2| | | | |]; try done.
  destruct r2; try done. destruct tgt; [|done]. destruct g; [done|]. intros _.
  destruct (search _ 0 s) as [[i y]|] eqn:E; [|done].
  apply search_sound in E as (k & -> & Hk & E).
  cbn [re_pattern re_ignoreCase rmatch] in E.
  apply rmatch_result in E as (y' & _ & E).
  destruct (m_rest y') eqn:Ey; [|done]. injection E as <-.
  rewrite Ey. cbn. rewrite app_nil_r. apply prefix_take.
Qed.

(** X3: on every string, removeRemastered returns a string that is a prefix
    of its input: the rules of REMASTERED_FILTERS can only cut text off the
    end. *)
Theorem removeRemastered_cuts_end (s : jsstring) :
  ∃ s', removeRemastered (JStr s) = Ok (JStr s') ∧ s' `prefix_of` s.
Proof.
  unfold removeRemastered.
  assert (forallb cuts_end_only REMASTERED_FILTERS = true) as Hset by reflexivity.
  revert s Hset. generalize REMASTERED_FILTERS.
  intros set. induction set as [|data set IH]; intros s Hset; [by exists s|].
  cbn in Hset. apply andb_true_iff in Hset as [Hd Hset].
  cbn [filterWithFilterSet replace].
  destruct (IH (string_replace s (source data) (target data)) Hset)
    as (s' & -> & Hs').
  exists s'. split; [done|]. etrans; [exact Hs'|]. by apply string_replace_cuts_end.
Qed.

Lemma filterWithFilterSet_app text set1 set2 :
  filterWithFilterSet text (set1 ++ set2)
  = match filterWithFilterSet text set1 with
    | Ok text' => filterWithFilterSet text' set2
    | Throw e => Throw e
    end.
Proof.
  revert text. induction set1 as [|d set1 IH]; intros text; [done|].
  cbn [app filterWithFilterSet]. by destruct (replace text d).
Qed.

Lemma filterWithFilterSet_string s set :
  ∃ s', filterWithFilterSet (JStr s) set = Ok (JStr s').
Proof.
  revert s. induction set as [|d set IH]; intros s; [by exists s|].
  cbn [filterWithFilterSet replace]. apply IH.
Qed.



Lemma atom_run_greedy_Some ic a min pos caps rest :
  atom_run ic a true Some min pos caps rest
  = if (min <=? length rest - length (strip_start (cset_match ic a) rest))%nat
    then Some (MState (pos + (length rest - length (strip_start (cset_match ic a) rest)))
                 (strip_start (cset_match ic a) rest) caps)
    else None.
Proof.
  assert (∀ s, length (strip_start (cset_match ic a) s) ≤ length s)%nat as Hlen.
  { induction s as [|c s IH]; cbn; [lia|]. destruct (cset_match ic a c); cbn; lia. }
  revert min pos. induction rest as [|ch rest IH]; intros min pos.
  - cbn. destruct min; cbn; [|done]. by rewrite Nat.add_0_r.
  - cbn [atom_run strip_start]. destruct (cset_match ic a ch) eqn:Ech.
    + rewrite IH. pose proof (Hlen rest). cbn [length].
      replace (S (length rest) - length (strip_start (cset_match ic a) rest))%nat
        with (S (length rest - length (strip_start (cset_match ic a) rest))) by lia.
      destruct min as [|min]; cbn [pred Nat.eqb negb Nat.leb].
      * cbn. do 2 f_equal. lia.
      * destruct (_ <=? _)%nat; [|done]. do 2 f_equal. lia.
    + rewrite Nat.sub_diag. destruct min; cbn; [|done]. by rewrite Nat.add_0_r.
Qed.

Lemma atom_run_greedy_eol ic a min pos caps rest :
  atom_run ic a true (λ y, rmatch ic Eol y Some) min pos caps rest
  = if forallb (cset_match ic a) rest && (min <=? length rest)%nat
    then Some (MState (pos + length rest) [] caps) else None.
Proof.
  revert min pos. induction rest as [|ch rest IH]; intros min pos.
  - cbn. destruct min; cbn; [|done]. by rewrite Nat.add_0_r.
  - cbn [atom_run forallb length]. destruct (cset_match ic a ch) eqn:Ech.
    + rewrite IH. cbn [andb rmatch m_rest].
      destruct min as [|min]; cbn [pred Nat.eqb negb Nat.leb].
      * rewrite andb_true_r. destruct (forallb _ rest); [|done]. cbn.
        do 2 f_equal. lia.
      * destruct (forallb _ rest && _); [|done]. do 2 f_equal. lia.
    + cbn. by destruct min.
Qed.

Lemma strip_end_all P s : forallb P s = true → strip_end P s = [].
Proof.
  induction s as [|c s IH]; [done|]. cbn. intros [Hc Hs]%andb_true_iff.
  by rewrite IH, Hc.
Qed.

Lemma strip_end_cons P c s :
  forallb P (c :: s) = false → strip_end P (c :: s) = c :: strip_end P s.
Proof.
  cbn. intros H. destruct (strip_end P s) as [|d t] eqn:E; [|done].
  destruct (P c) eqn:Ec; [|done]. cbn in H.
  assert (forallb P s = true) as Hs; [|by rewrite Hs in H].
  clear H. revert E. induction s as [|d s IH]; [done|]. cbn.
  destruct (strip_end P s); [|done]. destruct (P d); [|done]. auto.
Qed.

Lemma strip_start_length P s : (length (strip_start P s) ≤ length s)%nat.
Proof. induction s as [|c s IH]; cbn; [lia|]. destruct (P c); cbn; lia. Qed.

Lemma strip_start_fixed P s :
  strip_start P s = s ↔ match s with [] => True | c :: _ => P c = false end.
Proof.
  destruct s as [|c s]; [done|]. cbn. destruct (P c) eqn:Ec; [|done]. split; [|done].
  intros H. pose proof (strip_start_length P s) as Hl. rewrite H in Hl.
  cbn in Hl. lia.
Qed.

Lemma strip_start_idem P s : strip_start P (strip_start P s) = strip_start P s.
Proof.
  induction s as [|c s IH]; [done|]. cbn. destruct (P c) eqn:Ec; [done|].
  cbn. by rewrite Ec.
Qed.

Lemma strip_end_idem P s : strip_end P (strip_end P s) = strip_end P s.
Proof.
  induction s as [|c s IH]; [done|]. cbn.
  destruct (strip_end P s) as [|d t] eqn:E.
  - destruct (P c) eqn:Ec; cbn; by rewrite ?Ec.
  - cbn [strip_end] in *. by rewrite IH.
Qed.

Lemma strip_start_end P Q s :
  strip_start P s = s → strip_start P (strip_end Q s) = strip_end Q s.
Proof.
  intros H. apply strip_start_fixed in H. apply strip_start_fixed.
  destruct s as [|c s]; [done|]. cbn.
  destruct (strip_end Q s); [by destruct (Q c)|done].
Qed.

Lemma strip_start_weaken (P Q : N → bool) s :
  (∀ c, P c = true → Q c = true) → strip_start Q s = s → strip_start P s = s.
Proof.
  intros HPQ H. apply strip_start_fixed in H. apply strip_start_fixed.
  destruct s as [|c s]; [done|]. destruct (P c) eqn:Ec; [|done].
  apply HPQ in Ec. congruence.
Qed.

Lemma strip_end_weaken (P Q : N → bool) s :
  (∀ c, P c = true → Q c = true) → strip_end Q s = s → strip_end P s = s.
Proof.
  intros HPQ. induction s as [|c s IH]; [done|]. cbn.
  destruct (strip_end Q s) as [|d t] eqn:E.
  - destruct (Q c) eqn:Ec; [done|]. intros [= Hs]. subst s. cbn.
    destruct (P c) eqn:Ec'; [|done]. apply HPQ in Ec'. congruence.
  - intros [= Hs]. rewrite Hs in *. rewrite IH by done. by rewrite <- Hs.
Qed.

Lemma trim_start_strip s : trim_start s = strip_start is_space s.
Proof. induction s as [|c s IH]; [done|]. cbn. by rewrite IH. Qed.

Lemma trim_end_strip s : trim_end s = strip_end is_space s.
Proof. induction s as [|c s IH]; [done|]. cbn. by rewrite IH. Qed.

Lemma junk_class c : cset_match false (Class false junk) c = is_junk c.
Proof.
  unfold is_junk, junk, ic, dquote.
  cbn [cset_match existsb citem_match xorb].
  change (N_of_ascii "/") with 47. change (N_of_ascii ",") with 44.
  change (N_of_ascii ":") with 58. change (N_of_ascii ";") with 59.
  change (N_of_ascii "~") with 126. change (N_of_ascii "-") with 45.
  rewrite !(N.eqb_sym c).
  destruct (is_space c), (47 =? c), (44 =? c), (58 =? c), (59 =? c),
    (126 =? c), (45 =? c), (34 =? c); reflexivity.
Qed.

Lemma end_junk_class c :
  cset_match false (Class false (junk ++ [ISpace; ic "!"])) c = is_end_junk c.
Proof.
  unfold is_end_junk. rewrite <- junk_class.
  cbn [cset_match xorb]. rewrite existsb_app. cbn [existsb citem_match].
  change (N_of_ascii "!") with 33. rewrite (N.eqb_sym c).
  destruct (existsb _ junk) eqn:E; [done|]. cbn [orb].
  assert (is_space c = false) as ->; [|by rewrite orb_false_r].
  unfold junk in E. cbn [existsb citem_match] in E.
  by destruct (is_space c); [rewrite orb_true_r in E|].
Qed.

Lemma search_bol_later ic r g pos rest :
  search (RegExp (Seq Bol r) ic g) (S pos) rest = None.
Proof.
  revert pos. induction rest as [|ch rest IH]; intros pos; cbn [search]; [done|].
  apply IH.
Qed.

(** A pattern of the form ^a+ drops the leading characters that [a]
    accepts. *)
Lemma strip_leading_rule ic a s :
  string_replace s (RegExp (Seq Bol (Rep (Atom a) 1 None true)) ic false) []
  = strip_start (cset_match ic a) s.
Proof.
  unfold string_replace. cbn [re_global].
  assert (rmatch ic (Seq Bol (Rep (Atom a) 1 None true)) (MState 0 s ∅) Some
          = atom_run ic a true Some 1 0 ∅ s) as Hm.
  { rewrite rmatch_seq. cbn [rmatch m_pos Nat.eqb]. apply repeat_atom_run.
    cbn. lia. }
  assert (search (RegExp (Seq Bol (Rep (Atom a) 1 None true)) ic false) 0 s
          = (λ y, (0%nat, y)) <$> atom_run ic a true Some 1 0 ∅ s) as ->.
  { destruct s; cbn [search re_pattern re_ignoreCase]; rewrite Hm;
      destruct (atom_run _ _ _ _ _ _ _ _); try done.
    by rewrite search_bol_later. }
  rewrite atom_run_greedy_Some.
  destruct (Nat.leb_spec 1 (length s - length (strip_start (cset_match ic a) s)))
    as [Hn|Hn]; cbn; [done|].
  symmetry. apply strip_start_fixed. destruct s as [|c s]; [done|].
  cbn in Hn. destruct (cset_match ic a c); [|done].
  pose proof (strip_start_length (cset_match ic a) s). lia.
Qed.

(** A pattern of the form a+$ drops the trailing characters that [a]
    accepts. *)
Lemma strip_trailing_rule ic a s :
  string_replace s (RegExp (Seq (Rep (Atom a) 1 None true) Eol) ic false) []
  = strip_end (cset_match ic a) s.
Proof.
  unfold string_replace. cbn [re_global].
  set (re := RegExp (Seq (Rep (Atom a) 1 None true) Eol) ic false).
  assert (∀ pos rest,
    match search re pos rest with
    | Some (i, y) => take (i - pos) rest ++ m_rest y
    | None => rest
    end = strip_end (cset_match ic a) rest) as H.
  { intros pos rest. revert pos. induction rest as [|c rest IH]; intros pos;
      cbn [search re re_pattern re_ignoreCase]; rewrite rmatch_seq, rmatch_rep_atom,
      atom_run_greedy_eol; cbn [m_pos m_rest m_caps].
    - done.
    - destruct (forallb (cset_match ic a) (c :: rest)) eqn:Eall.
      + cbn [andb length Nat.leb]. cbn [m_rest]. rewrite Nat.sub_diag, take_0.
        by rewrite strip_end_all.
      + cbn [andb]. rewrite strip_end_cons by done. rewrite <- (IH (S pos)).
        fold re. destruct (search re (S pos) rest) as [[i y]|] eqn:E; [|done].
        apply search_result in E as (Hi & _).
        by replace (i - pos)%nat with (S (i - S pos)) by lia. }
  specialize (H 0%nat s). destruct (search re 0 s) as [[i y]|]; [|done].
  by rewrite Nat.sub_0_r in H.
Qed.

Lemma strip_start_ext (P Q : N → bool) s :
  (∀ c, P c = Q c) → strip_start P s = strip_start Q s.
Proof.
  intros H. induction s as [|c s IH]; [done|]. cbn. by rewrite H, IH.
Qed.

Lemma strip_end_ext (P Q : N → bool) s :
  (∀ c, P c = Q c) → strip_end P s = strip_end Q s.
Proof.
  intros H. induction s as [|c s IH]; [done|]. cbn. by rewrite H, IH.
Qed.

Lemma youtube_rules_tail (s : jsstring) :
  ∃ s1, youtube (JStr s)
        = Ok (JStr (strip_end is_end_junk (strip_start is_junk s1))).
Proof.
  unfold youtube.
  assert (∃ rules, YOUTUBE_TRACK_FILTERS
    = rules ++ [Rule (re (cat [Bol; plus (cls junk)])) [];
                Rule (re (cat [plus (cls (junk ++ [ISpace; ic "!"])); Eol])) []])
    as [rules ->] by (by eexists (take 21 YOUTUBE_TRACK_FILTERS)).
  rewrite filterWithFilterSet_app.
  destruct (filterWithFilterSet_string s rules) as [s1 ->].
  cbn [filterWithFilterSet replace source target].
  unfold re, cat, plus, cls. cbn [foldl].
  rewrite strip_leading_rule, strip_trailing_rule.
  rewrite (strip_start_ext _ is_junk) by apply junk_class.
  rewrite (strip_end_ext _ is_end_junk) by apply end_junk_class.
  by exists s1.
Qed.

Lemma stripped_is_trimmed (r : jsstring) :
  strip_start is_junk r = r → strip_end is_end_junk r = r → string_trim r = r.
Proof.
  intros Hstart Hend.
  unfold string_trim. rewrite trim_start_strip, trim_end_strip.
  rewrite (strip_start_weaken is_space is_junk);
    [|intros c Hc; unfold is_junk; by rewrite Hc|exact Hstart].
  apply (strip_end_weaken is_space is_end_junk);
    [intros c Hc; unfold is_end_junk, is_junk; by rewrite Hc|exact Hend].
Qed.

(** X5: whatever the string, the youtube filter returns a string that does
    not start with white space, a slash, a comma, a colon, a semicolon, a
    tilde, a dash or a double quote, and does not end with one of these or
    with an exclamation mark; trimming it changes nothing. *)
Theorem youtube_output_is_stripped (s : jsstring) :
  ∃ r, youtube (JStr s) = Ok (JStr r)
       ∧ strip_start is_junk r = r
       ∧ strip_end is_end_junk r = r
       ∧ string_trim r = r.
Proof.
  destruct (youtube_rules_tail s) as [s1 Hs1].
  exists (strip_end is_end_junk (strip_start is_junk s1)).
  split; [exact Hs1|].
  assert (strip_start is_junk (strip_end is_end_junk (strip_start is_junk s1))
          = strip_end is_end_junk (strip_start is_junk s1)) as Hstart
    by apply strip_start_end, strip_start_idem.
  split; [exact Hstart|]. split; [apply strip_end_idem|].
  apply stripped_is_trimmed; [exact Hstart|apply strip_end_idem].
Qed.

(** X6: for each of the fields artist, track and album and every input
    other than null and the empty string, the field filter first runs the
    filters given for the field, in order, and then the filters given under
    all on the result; when a filter of the field faults, none of those
    under all is invoked. *)
Theorem field_filters_run_before_all (filterSet : gmap string entry)
    (field : string) (text : jsval) (l : log) :
  field ∈ fields → text ≠ JNull → text ≠ JStr [] →
  filterBy field (New filterSet) text l
  = match forEach (createFilters (get_prop filterSet field)) text l with
    | (l', Ok text') => forEach (createFilters (get_prop filterSet "all")) text' l'
    | (l', Throw e) => (l', Throw e)
    end.
Proof.
  intros Hfield H1 H2. unfold filterBy, New. cbn [mergedFilterSet].
  rewrite createMergedFilters_lookup by done.
  rewrite filterField_chain by done. apply forEach_app.
Qed.

Lemma field_filters_run_before_all_witness :
  filterBy "track" (New sample_filterSet) (JStr (str " a (Remastered 2009) ")) []
  = ([JStr (str " a (Remastered 2009) "); JStr (str "a (Remastered 2009)");
      JStr (str "a ")], Ok (JStr (str "a"))).
Proof.
  rewrite (field_filters_run_before_all sample_filterSet "track");
    [vm_compute; reflexivity | unfold fields; repeat constructor
    | discriminate | discriminate].
Defined.

(** X7: the three predefined filter objects, on a non-empty string. The
    trim filter trims each field with one invocation. The Youtube filter
    trims artist and album, and on a track runs youtube and then trim, the
    result being that of youtube, which trim leaves as it is. The remastered
    filter trims the artist, and on track and album runs removeRemastered
    and then trim. *)
Theorem preset_fields (s : jsstring) :
  s ≠ [] →
  (∀ f, f ∈ [filterArtist; filterTrack; filterAlbum] →
        run (f getTrimFilter (JStr s)) = ([JStr s], Ok (JStr (string_trim s))))
  ∧ (∀ f, f ∈ [filterArtist; filterAlbum] →
          run (f getYoutubeFilter (JStr s)) = ([JStr s], Ok (JStr (string_trim s))))
  ∧ (∃ r, youtube (JStr s) = Ok (JStr r)
          ∧ run (filterTrack getYoutubeFilter (JStr s))
            = ([JStr s; JStr r], Ok (JStr r)))
  ∧ run (filterArtist getRemasteredFilter (JStr s))
    = ([JStr s], Ok (JStr (string_trim s)))
  ∧ (∀ f, f ∈ [filterTrack; filterAlbum] →
          ∃ r, removeRemastered (JStr s) = Ok (JStr r)
               ∧ run (f getRemasteredFilter (JStr s))
                 = ([JStr s; JStr r], Ok (JStr (string_trim r)))).
Proof.
  intros Hs.
  assert (∀ fs, run (filterField (JStr s) fs) = run (forEach fs (JStr s))) as Hrun.
  { intros fs. unfold run. rewrite filterField_chain; [done|done|].
    intros [= ->]. done. }
  split; [|split; [|split; [|split]]].
  - intros f Hf. rewrite !elem_of_cons, elem_of_nil in Hf.
    destruct Hf as [->|[->|[->|[]]]];
      (etrans; [apply (Hrun [EFun trim])|reflexivity]).
  - intros f Hf. rewrite !elem_of_cons, elem_of_nil in Hf.
    destruct Hf as [->|[->|[]]];
      (etrans; [apply (Hrun [EFun trim])|reflexivity]).
  - destruct (youtube_rules_tail s) as (s1 & Hr).
    assert (string_trim (strip_end is_end_junk (strip_start is_junk s1))
            = strip_end is_end_junk (strip_start is_junk s1)) as Htrim
      by (apply stripped_is_trimmed;
          [apply strip_start_end, strip_start_idem|apply strip_end_idem]).
    revert Hr Htrim. generalize (strip_end is_end_junk (strip_start is_junk s1)).
    intros r Hr Htrim.
    exists r. split; [done|].
    etrans; [apply (Hrun [EFun youtube; EFun trim])|].
    unfold run. rewrite forEach_cons. cbn [invoke]. rewrite Hr, forEach_cons.
    cbn [invoke trim forEach app]. by rewrite Htrim.
  - etrans; [apply (Hrun [EFun trim])|reflexivity].
  - intros f Hf. rewrite !elem_of_cons, elem_of_nil in Hf.
    destruct (filterWithFilterSet_string s REMASTERED_FILTERS) as (r & Hr).
    change (removeRemastered (JStr s) = Ok (JStr r)) in Hr. exists r.
    split; [done|].
    destruct Hf as [->|[->|[]]];
      (etrans; [apply (Hrun [EFun removeRemastered; EFun trim])|]);
      unfold run; rewrite forEach_cons; cbn [invoke]; by rewrite Hr.
Qed.

Lemma preset_fields_witness :
  run (filterArtist getRemasteredFilter (JStr (str " The Beatles ")))
  = ([JStr (str " The Beatles ")], Ok (JStr (str "The Beatles"))).
Proof.
  apply (preset_fields (str " The Beatles ")). discriminate.
Defined.

End RuleFacts.

(** ** The connector *)

Module ConnectorFacts.
Import RuleFacts.
Import Youtube YoutubeSpec YoutubeFacts ConnectorSpec.

(** X8: in the default layout a state change is allowed exactly when
    music-only mode is off, or the page gives no genre (the meta element is
    missing or its content is empty), or the genre is Music. *)
Theorem isStateChangeAllowed_spec (scrobbleMusicOnly : bool) (d : dom) :
  isStateChangeAllowed scrobbleMusicOnly d = true
  ↔ scrobbleMusicOnly = false
    ∨ toBoolean (getItemPropValue d "genre") = false
    ∨ getItemPropValue d "genre" = JStr (str "Music").
Proof.
  unfold isStateChangeAllowed.
  destruct (toBoolean (getItemPropValue d "genre")) eqn:Et; [|tauto].
  destruct scrobbleMusicOnly; cbn [negb orb andb]; [|tauto].
  rewrite FilterFacts.strict_eq_spec by done.
  split; [tauto|]. intros [?|[?|?]]; done.
Qed.

Lemma isStateChangeAllowed_spec_witness :
  isStateChangeAllowed true (genre_page (str "Music")) = true
  ∧ isStateChangeAllowed true (genre_page (str "Comedy")) ≠ true.
Proof.
  split.
  - apply (isStateChangeAllowed_spec true (genre_page (str "Music"))).
    right. right. reflexivity.
  - intros H. apply (isStateChangeAllowed_spec true (genre_page (str "Comedy"))) in H.
    destruct H as [H|[H|H]]; vm_compute in H; discriminate H.
Defined.

(** X9: reading the stored options never switches music-only mode off,
    and switches it on exactly when the stored data has
    Connectors.YouTube.scrobbleMusicOnly strictly equal to true. *)
Theorem readConnectorOptions_spec (data : stored) (scrobbleMusicOnly : bool) :
  (scrobbleMusicOnly = true → readConnectorOptions data scrobbleMusicOnly = true)
  ∧ (readConnectorOptions data false = true
     ↔ stored_get (stored_get (stored_get data "Connectors") "YouTube")
         "scrobbleMusicOnly" = SVal (JBool true)).
Proof.
  unfold readConnectorOptions. split.
  - intros ->. destruct (_ && _); [|done]. by repeat case_match.
  - destruct data as [v|props].
    + cbn. destruct (toBoolean v); cbn; split; done.
    + cbn [stored_truthy andb].
      destruct (stored_get (SObj props) "Connectors") as [v|cs] eqn:Ec.
      { cbn. destruct (toBoolean v); cbn; split; done. }
      cbn [stored_truthy andb].
      destruct (stored_get (SObj cs) "YouTube") as [v|ys] eqn:Ey.
      { cbn. destruct (toBoolean v); cbn; split; done. }
      cbn [stored_truthy]. split; [by repeat case_match|]. by intros ->.
Qed.

Lemma readConnectorOptions_spec_witness :
  readConnectorOptions music_only_options false = true.
Proof.
  apply (proj2 (readConnectorOptions_spec music_only_options false)).
  reflexivity.
Defined.

Lemma atom_run_greedy_total ic a (c : cont) min pos caps rest :
  (∀ y, is_Some (c y)) →
  atom_run ic a true c min pos caps rest
  = if (min <=? length rest - length (strip_start (cset_match ic a) rest))%nat
    then c (MState (pos + (length rest - length (strip_start (cset_match ic a) rest)))
              (strip_start (cset_match ic a) rest) caps)
    else None.
Proof.
  intros Hc. revert min pos. induction rest as [|ch rest IH]; intros min pos.
  - cbn. destruct min; cbn; [|done]. rewrite Nat.add_0_r. by destruct (c _).
  - cbn [atom_run strip_start]. destruct (cset_match ic a ch) eqn:Ech.
    + rewrite IH. pose proof (strip_start_length (cset_match ic a) rest).
      cbn [length].
      replace (S (length rest) - length (strip_start (cset_match ic a) rest))%nat
        with (S (length rest - length (strip_start (cset_match ic a) rest))) by lia.
      replace (pos + S (length rest - length (strip_start (cset_match ic a) rest)))%nat
        with (S pos + (length rest - length (strip_start (cset_match ic a) rest)))%nat
        by lia.
      destruct min as [|min]; cbn [pred Nat.eqb negb Nat.leb].
      * destruct (Hc (MState (S pos + (length rest
                    - length (strip_start (cset_match ic a) rest)))
                    (strip_start (cset_match ic a) rest) caps)) as [z Hz].
        by rewrite Hz.
      * by destruct (_ <=? _)%nat.
    + rewrite Nat.sub_diag. destruct min; cbn; [|done]. rewrite Nat.add_0_r.
      by destruct (c _).
Qed.

Lemma strip_start_split P s :
  ∃ run, s = run ++ strip_start P s
         ∧ Forall (λ c, P c = true) run
         ∧ length run = (length s - length (strip_start P s))%nat.
Proof.
  induction s as [|c s (run & Hs & Hrun & Hlen)]; [by exists []|].
  cbn [strip_start]. destruct (P c) eqn:Ec.
  - exists (c :: run). pose proof (strip_start_length P s).
    split; [cbn; by rewrite <- Hs|]. split; [by constructor|]. cbn. lia.
  - exists []. split; [done|]. split; [constructor|]. cbn. lia.
Qed.

Lemma strip_start_head P s :
  match strip_start P s with [] => True | c :: _ => P c = false end.
Proof.
  induction s as [|c s IH]; [done|]. cbn. by destruct (P c) eqn:Ec.
Qed.

Lemma rmatch_rep ic r min max g x c :
  rmatch ic (Rep r min max g) x c
  = repeat_matcher (rmatch ic r) (parens_of r)
      (S (min + length (m_rest x))) min max g x c.
Proof. reflexivity. Qed.

(** An optional atom: take it when it is there, go on either way. *)
Lemma rmatch_opt_atom ic a x c :
  rmatch ic (opt (Atom a)) x c
  = match
      match m_rest x with
      | ch :: rest =>
          if cset_match ic a ch
          then c (MState (S (m_pos x)) rest (m_caps x)) else None
      | [] => None
      end
    with
    | Some z => Some z
    | None => c x
    end.
Proof.
  unfold opt. rewrite rmatch_rep. cbn [parens_of repeat_matcher negb Nat.eqb].
  rewrite rmatch_atom. cbn [clear_caps foldr m_rest m_pos m_caps].
  destruct (m_rest x) as [|ch rest]; [done|].
  destruct (cset_match ic a ch); [|done].
  replace (S (m_pos x) =? m_pos x)%nat with false
    by (symmetry; apply Nat.eqb_neq; lia).
  done.
Qed.

Lemma rmatch_opt_atom_caps ic a x y :
  rmatch ic (opt (Atom a)) x Some = Some y → m_caps y = m_caps x.
Proof.
  rewrite rmatch_opt_atom. destruct (m_rest x) as [|ch rest]; [by intros [= <-]|].
  destruct (cset_match ic a ch); by intros [= <-].
Qed.

Lemma rmatch_opt_atom_total ic a x : is_Some (rmatch ic (opt (Atom a)) x Some).
Proof.
  rewrite rmatch_opt_atom. destruct (m_rest x) as [|ch rest]; [done|].
  by destruct (cset_match ic a ch).
Qed.

Lemma dot_class c : cset_match false Dot c = true ↔ dotchar c.
Proof. unfold dotchar. cbn. by rewrite negb_true_iff. Qed.

Lemma video_id_match x :
  rmatch false (re_pattern video_id_re) x Some
  = match m_rest x with
    | 118 :: 61 :: rest =>
        let n := (length rest - length (strip_start (cset_match false Dot) rest))%nat in
        if (1 <=? n)%nat then
          rmatch false (opt (chr "&"))
            (set_cap 1 (take n rest)
               (MState (S (S (m_pos x)) + n)
                  (strip_start (cset_match false Dot) rest) (m_caps x))) Some
        else None
    | _ => None
    end.
Proof.
  destruct x as [pos rest caps]. cbn [m_rest m_pos m_caps].
  cbn [video_id_re re_pattern cat foldl]. rewrite !rmatch_seq.
  unfold chr at 1. rewrite rmatch_atom. cbn [m_rest m_pos m_caps].
  destruct rest as [|c1 rest]; [done|]. cbn [cset_match citem_match].
  change (N_of_ascii "v") with 118.
  destruct (N.eqb_spec 118 c1) as [<-|Hc1]; [|by repeat case_match].
  unfold chr at 1. rewrite rmatch_atom. cbn [m_rest m_pos m_caps].
  destruct rest as [|c2 rest]; [done|]. cbn [cset_match citem_match].
  change (N_of_ascii "=") with 61.
  destruct (N.eqb_spec 61 c2) as [<-|Hc2]; [|by repeat case_match].
  rewrite rmatch_group. unfold plus, dot. rewrite rmatch_rep_atom.
  cbn [m_rest m_pos m_caps].
  rewrite atom_run_greedy_total by (intros y; apply rmatch_opt_atom_total).
  cbn [m_pos]. destruct (1 <=? _)%nat; [|done].
  do 3 f_equal. lia.
Qed.

Lemma string_match_video_id url m :
  string_match url video_id_re = Some m →
  ∃ id, group m 1 = JStr id ∧ video_id_shape url id.
Proof.
  unfold string_match. destruct (search video_id_re 0 url) as [[i y]|] eqn:E; [|done].
  intros [= <-]. apply search_sound in E as (k & -> & Hk & E).
  cbn [re_ignoreCase] in E. rewrite video_id_match in E. cbn [m_rest m_pos m_caps] in E.
  destruct (drop k url) as [|c1 [|c2 rest]] eqn:Edrop; try done.
  { by repeat case_match. }
  destruct (N.eqb_spec c1 118) as [->|]; [|by repeat case_match].
  destruct (N.eqb_spec c2 61) as [->|]; [|by repeat case_match].
  cbn zeta in E.
  destruct (Nat.leb_spec 1
    (length rest - length (strip_start (cset_match false Dot) rest))) as [Hn|];
    [|done].
  apply rmatch_opt_atom_caps in E. cbn [set_cap m_caps] in E.
  destruct (strip_start_split (cset_match false Dot) rest) as (run & Hrest & Hrun & Hlen).
  exists run. unfold group. rewrite lookup_insert_ne by done. rewrite E.
  rewrite lookup_insert_eq. rewrite <- Hlen.
  rewrite Hrest at 1. rewrite take_app_length. split; [done|].
  exists (take k url), (strip_start (cset_match false Dot) rest).
  split; [by rewrite <- Hrest, <- Edrop, take_drop|].
  split; [intros ->; cbn in Hlen; lia|].
  split; [eapply Forall_impl; [exact Hrun|]; intros c; apply dot_class|].
  pose proof (strip_start_head (cset_match false Dot) rest) as Hhd.
  destruct (strip_start _ rest); [done|]. cbn in Hhd. by apply negb_false_iff.
Qed.

Lemma string_match_video_id_complete url id :
  video_id_shape url id → is_Some (string_match url video_id_re).
Proof.
  intros (pre & tail & -> & Hne & Hid & _).
  assert (is_Some (rmatch false (re_pattern video_id_re)
            (MState (0 + length pre) (118 :: 61 :: id ++ tail) ∅) Some)) as [y Hy].
  { rewrite video_id_match. cbn [m_rest m_pos m_caps]. cbn zeta.
    destruct id as [|c id]; [done|]. apply Forall_cons in Hid as [Hc _].
    apply dot_class in Hc. cbn [app strip_start length]. rewrite Hc.
    pose proof (strip_start_length (cset_match false Dot) (id ++ tail)).
    destruct (Nat.leb_spec 1 (S (length (id ++ tail))
      - length (strip_start (cset_match false Dot) (id ++ tail)))); [|lia].
    apply rmatch_opt_atom_total. }
  destruct (search_complete video_id_re 0
              (pre ++ 118 :: 61 :: id ++ tail) (length pre) y) as [[i y'] Hs].
  - rewrite length_app. lia.
  - by rewrite drop_app_length.
  - unfold string_match. by rewrite Hs.
Qed.

(** X10: in the Material layout with the player on screen, getUniqueID on
    the address of the title link returns either a non-empty id such that
    the address reads: some text, v=, the id, and then the end of the address
    or a line break (so that parameters after the video id are part of what
    is returned), or null when the address has no such reading; when the
    title link is missing the call throws a TypeError. *)
Theorem material_getUniqueID_spec (d : dom) :
  isPlayerOffscreen_material (document_of d) = false →
  (∀ url, jq_attr d ".ytp-title-link" "href" = JStr url →
     (∃ id, material_getUniqueID d = Ok (JStr id) ∧ video_id_shape url id)
     ∨ (material_getUniqueID d = Ok JNull ∧ ∀ id, ¬ video_id_shape url id))
  ∧ (jq_attr d ".ytp-title-link" "href" = JUndefined →
     material_getUniqueID d = Throw TypeError).
Proof.
  intros Hon. unfold material_getUniqueID. rewrite Hon. split.
  - intros url ->. destruct (string_match url video_id_re) as [m|] eqn:E.
    + left. apply string_match_video_id in E as (id & -> & Hshape). eauto.
    + right. split; [done|]. intros id Hshape.
      apply string_match_video_id_complete in Hshape as [m Hm]. congruence.
  - by intros ->.
Qed.

Lemma material_getUniqueID_spec_witness :
  material_getUniqueID
    (link_page (str "https://www.youtube.com/watch?v=abc&list=xyz"))
  = Ok (JStr (str "abc&list=xyz")).
Proof.
  destruct (proj1 (material_getUniqueID_spec
     (link_page (str "https://www.youtube.com/watch?v=abc&list=xyz")) eq_refl)
     (str "https://www.youtube.com/watch?v=abc&list=xyz") eq_refl)
    as [(id & Hid & _)|[Hnull _]]; vm_compute in *; congruence.
Defined.

(** X11: for the connector that setupConnector makes, on a page whose
    player it finds off screen: getCurrentTime and getDuration return null;
    in the Material layout getArtistTrack returns the pair of nulls and
    getUniqueID returns null; in the default layout both still read the meta
    elements of the page. *)
Theorem connector_offscreen_gating (splitArtistTrack : splitter) (d0 d : dom) :
  c_isPlayerOffscreen (setupConnector splitArtistTrack d0) (document_of d) = true →
  c_getCurrentTime (setupConnector splitArtistTrack d0) d = JNull
  ∧ c_getDuration (setupConnector splitArtistTrack d0) d = JNull
  ∧ (isDefaultPlayer (document_of d0) = false →
     c_getArtistTrack (setupConnector splitArtistTrack d0) d
     = Ok (Parsed JNull JNull)
     ∧ c_getUniqueID (setupConnector splitArtistTrack d0) d = Ok JNull)
  ∧ (isDefaultPlayer (document_of d0) = true →
     c_getArtistTrack (setupConnector splitArtistTrack d0) d
     = processYoutubeVideoTitle splitArtistTrack (getItemPropValue d "name")
     ∧ c_getUniqueID (setupConnector splitArtistTrack d0) d
       = Ok (getItemPropValue d "videoId")).
Proof.
  unfold setupConnector. destruct (isDefaultPlayer (document_of d0));
    cbn [c_isPlayerOffscreen c_getCurrentTime c_getDuration c_getArtistTrack
         c_getUniqueID]; intros Hoff;
    unfold getCurrentTime, getDuration, material_getArtistTrack,
      material_getUniqueID; rewrite ?Hoff; by repeat split.
Qed.

Lemma connector_offscreen_gating_witness :
  c_getArtistTrack (setupConnector no_split (material_page 0 5)) (material_page 0 5)
  = Ok (Parsed JNull JNull)
  ∧ c_getUniqueID (setupConnector no_split (material_page 0 5)) (material_page 0 5)
    = Ok JNull.
Proof.
  apply (connector_offscreen_gating no_split (material_page 0 5) (material_page 0 5));
    vm_compute; reflexivity.
Defined.

(** The observer, in full. *)
Lemma observe_flag offscreen flag mutations :
  (observe offscreen flag mutations).1 = flag || negb (forallb offscreen mutations).
Proof.
  revert flag. induction mutations as [|doc rest IH]; intros flag.
  - cbn. by rewrite orb_false_r.
  - rewrite observe_cons. cbn [fst forallb]. rewrite IH.
    unfold observer_callback. destruct (offscreen doc), flag; cbn; try done.
Qed.

Lemma observe_lookup offscreen flag mutations i doc :
  mutations !! i = Some doc →
  (observe offscreen flag mutations).2 !! i
  = Some (if offscreen doc then [StateChanged]
          else if negb flag && forallb offscreen (take i mutations)
               then [AttachTimeupdate (el_id <$> doc videoSelector)]
               else []).
Proof.
  revert flag i. induction mutations as [|doc' rest IH]; intros flag i; [done|].
  rewrite observe_cons. cbn [snd]. destruct i as [|i].
  - intros [= ->]. cbn [lookup list_lookup take forallb]. rewrite andb_true_r.
    unfold observer_callback. by destruct (offscreen doc), flag.
  - intros Hi. cbn [take forallb]. change ((?x :: ?l) !! S i) with (l !! i).
    rewrite (IH _ i) by done. do 2 f_equal.
    unfold observer_callback. destruct (offscreen doc'), flag; cbn; try done.
Qed.

(** X12: the mutation observer, for any sequence of mutations: it acts
    once per mutation; a mutation with the player off screen gives a state
    change; the timeupdate listener is attached at the first mutation with
    the player on screen and at no other; later mutations on screen do
    nothing; and the flag ends up set exactly when some mutation had the
    player on screen. *)
Theorem observer_trace (offscreen : document → bool) (mutations : list document) :
  length (setupMutationObserver offscreen mutations).2 = length mutations
  ∧ (setupMutationObserver offscreen mutations).1
    = negb (forallb offscreen mutations)
  ∧ ∀ i doc, mutations !! i = Some doc →
      (setupMutationObserver offscreen mutations).2 !! i
      = Some (if offscreen doc then [StateChanged]
              else if forallb offscreen (take i mutations)
                   then [AttachTimeupdate (el_id <$> doc videoSelector)]
                   else []).
Proof.
  unfold setupMutationObserver. split; [|split].
  - generalize false. induction mutations as [|doc rest IH]; intros flag; [done|].
    rewrite observe_cons. cbn. by rewrite IH.
  - apply observe_flag.
  - intros i doc Hi. by rewrite (observe_lookup _ _ _ _ _ Hi).
Qed.

Lemma canon_literal a c :
  (a < 65 ∨ 90 < a) → (a < 97 ∨ 122 < a) → (canon a =? canon c) = (a =? c).
Proof.
  intros H1 H2. unfold canon.
  destruct (N.leb_spec 97 a), (N.leb_spec a 122), (N.leb_spec 97 c),
    (N.leb_spec c 122); cbn [andb]; try lia;
    destruct (N.eqb_spec a c), (N.eqb_spec a (c - 32)); try lia; done.
Qed.

(** A greedy unbounded repetition of an atom before a continuation that
    always succeeds takes all it can. *)
Lemma rmatch_star_atom_total ic a x (c : cont) :
  (∀ y, is_Some (c y)) →
  rmatch ic (star (Atom a)) x c
  = c (MState (m_pos x + (length (m_rest x)
                 - length (strip_start (cset_match ic a) (m_rest x))))
         (strip_start (cset_match ic a) (m_rest x)) (m_caps x)).
Proof.
  intros Hc. unfold star. rewrite rmatch_rep_atom.
  by rewrite atom_run_greedy_total.
Qed.

Lemma atom_run_greedy_fail ic a (c : cont) min pos caps rest :
  (∀ k, (k ≤ length rest)%nat → c (MState (pos + k) (drop k rest) caps) = None) →
  atom_run ic a true c min pos caps rest = None.
Proof.
  revert min pos. induction rest as [|ch rest IH]; intros min pos Hc.
  - cbn. specialize (Hc 0%nat). rewrite Nat.add_0_r in Hc. cbn in Hc.
    rewrite Hc by lia. by destruct min.
  - cbn [atom_run]. rewrite IH.
    + specialize (Hc 0%nat). rewrite Nat.add_0_r in Hc. cbn in Hc.
      rewrite Hc by lia. by destruct (cset_match ic a ch), min.
    + intros k Hk. specialize (Hc (S k)). cbn in Hc.
      replace (S pos + k)%nat with (pos + S k)%nat by lia. apply Hc. lia.
Qed.

Lemma rmatch_bol ic x c :
  rmatch ic Bol x c = if (m_pos x =? 0)%nat then c x else None.
Proof. reflexivity. Qed.

Lemma ncls_close c : cset_match true (Class true [ic "]"]) c = negb (c =? 93).
Proof.
  cbn [cset_match existsb citem_match xorb ic]. change (N_of_ascii "]") with 93.
  rewrite orb_false_r, canon_literal by lia. by rewrite N.eqb_sym.
Qed.

Lemma dash_class c : cset_match true (One (IChar 45)) c = (c =? 45).
Proof.
  cbn [cset_match citem_match]. rewrite canon_literal by lia. apply N.eqb_sym.
Qed.

Lemma genre_tail y :
  ∃ z, rmatch true (star ws) y
         (λ y5, rmatch true (star (chr "-")) y5
                  (λ y6, rmatch true (star ws) y6 Some)) = Some z
       ∧ m_rest z = strip_start is_space
                      (strip_start (λ c, c =? 45) (strip_start is_space (m_rest y))).
Proof.
  assert (∀ x, ∃ z, rmatch true (star ws) x Some = Some z
                    ∧ m_rest z = strip_start is_space (m_rest x)) as H3.
  { intros x. unfold ws. rewrite rmatch_star_atom_total by (intros ?; eauto).
    eexists. split; [reflexivity|]. done. }
  assert (∀ x, ∃ z, rmatch true (star (chr "-")) x
                      (λ y6, rmatch true (star ws) y6 Some) = Some z
                    ∧ m_rest z = strip_start is_space
                                   (strip_start (λ c, c =? 45) (m_rest x))) as H2.
  { intros x. unfold chr at 1.
    rewrite rmatch_star_atom_total
      by (intros y'; destruct (H3 y') as (z & -> & _); eauto).
    change (N_of_ascii "-") with 45.
    destruct (H3 (MState (m_pos x + (length (m_rest x)
                   - length (strip_start (cset_match true (One (IChar 45))) (m_rest x))))
                (strip_start (cset_match true (One (IChar 45))) (m_rest x))
                (m_caps x))) as (z & Hz & Hrest).
    exists z. split; [exact Hz|]. rewrite Hrest. cbn [m_rest].
    f_equal. apply strip_start_ext, dash_class. }
  unfold ws at 1.
  rewrite rmatch_star_atom_total
    by (intros y'; destruct (H2 y') as (z & -> & _); eauto).
  destruct (H2 (MState (m_pos y + (length (m_rest y)
                   - length (strip_start (cset_match true (One ISpace)) (m_rest y))))
                (strip_start (cset_match true (One ISpace)) (m_rest y))
                (m_caps y))) as (z & Hz & Hrest).
  exists z. split; [exact Hz|]. by rewrite Hrest.
Qed.

Lemma genre_match_start s :
  (λ y, m_rest y) <$> rmatch true (re_pattern genre_re) (MState 0 s ∅) Some
  = match s with
    | 91 :: rest =>
        match strip_start (λ c, negb (c =? 93)) rest with
        | 93 :: after =>
            if (length after + 1 <? length rest)%nat then
              Some (strip_start is_space
                      (strip_start (λ c, c =? 45) (strip_start is_space after)))
            else None
        | _ => None
        end
    | _ => None
    end.
Proof.
  cbn [genre_re re_pattern cat foldl]. rewrite !rmatch_seq, rmatch_bol.
  cbn [m_pos Nat.eqb]. unfold chr at 1. rewrite rmatch_atom. cbn [m_rest m_pos m_caps].
  destruct s as [|c0 rest]; [done|].
  cbn [cset_match citem_match]. change (N_of_ascii "[") with 91.
  rewrite canon_literal by lia.
  destruct (N.eqb_spec 91 c0) as [<-|Hc0]; [|by repeat case_match].
  change (rmatch true (plus (ncls [ic "]"])) ?x ?c)
    with (rmatch true (Rep (Atom (Class true [ic "]"])) 1 None true) x c).
  rewrite rmatch_rep_atom. cbn [m_pos m_rest m_caps].
  rewrite (strip_start_ext (λ c, negb (c =? 93))
             (cset_match true (Class true [ic "]"])))
    by (intros c; symmetry; apply ncls_close).
  set (P := cset_match true (Class true [ic "]"])).
  destruct (strip_start_split P rest) as (g & Hrest & Hg & Hlen).
  pose proof (strip_start_head P rest) as Hhd.
  destruct (strip_start P rest) as [|c1 after] eqn:Etail.
  - (* no closing bracket *)
    rewrite atom_run_greedy_fail; [done|]. intros k Hk.
    unfold chr at 1. rewrite rmatch_atom. cbn [m_rest]. rewrite app_nil_r in Hrest. subst g.
    destruct (drop k rest) as [|c r] eqn:Ed; [done|].
    assert (P c = true) as Hc.
    { apply (Forall_drop _ k) in Hg. rewrite Ed in Hg.
      by apply Forall_cons in Hg as [? _]. }
    unfold P in Hc. rewrite ncls_close in Hc. apply negb_true_iff in Hc.
    cbn [cset_match citem_match]. change (N_of_ascii "]") with 93.
    rewrite canon_literal by lia. by rewrite N.eqb_sym, Hc.
  - unfold P in Hhd. rewrite ncls_close in Hhd. apply negb_false_iff in Hhd.
    apply N.eqb_eq in Hhd. subst c1.
    assert (length rest = (length g + S (length after))%nat) as Hl
      by (rewrite Hrest at 1; by rewrite length_app).
    destruct g as [|c g].
    + (* an empty tag *)
      cbn in Hrest. subst rest. rewrite atom_run_none.
      * cbn [length]. by destruct (Nat.ltb_spec (length after + 1) (S (length after)));
          [lia|].
      * lia.
      * unfold P. rewrite ncls_close. done.
    + destruct (Nat.ltb_spec (length after + 1) (length rest)) as [_|]; [|cbn in Hl; lia].
      destruct (genre_tail (MState (S (1 + length (c :: g))) after ∅))
        as (z & Hz & Hzrest).
      rewrite Hrest.
      rewrite (atom_run_greedy_max _ _ _ _ _ _ (c :: g) (93 :: after) z).
      * cbn. by rewrite Hzrest.
      * exact Hg.
      * cbn. lia.
      * change (P 93 = false). unfold P. by rewrite ncls_close.
      * unfold chr at 1. rewrite rmatch_atom.
        cbn [m_rest m_pos m_caps cset_match citem_match].
        change (N_of_ascii "]") with 93. rewrite canon_literal by lia.
        rewrite N.eqb_refl. exact Hz.
Qed.

Lemma genre_search_later pos rest : search genre_re (S pos) rest = None.
Proof.
  revert pos. induction rest as [|c rest IH]; intros pos; cbn [search];
    cbn [genre_re re_pattern re_ignoreCase cat foldl];
    rewrite !rmatch_seq, rmatch_bol; cbn [m_pos Nat.eqb]; [done|]. apply IH.
Qed.

Lemma genre_replace s : string_replace s genre_re [] = strip_genre s.
Proof.
  unfold string_replace, strip_genre. cbn [genre_re re_global]. fold genre_re.
  pose proof (genre_match_start s) as Hm.
  assert (search genre_re 0 s
          = (λ y, (0%nat, y)) <$> rmatch true (re_pattern genre_re) (MState 0 s ∅) Some)
    as ->.
  { destruct s; cbn [search re_ignoreCase genre_re];
      fold genre_re; destruct (rmatch _ _ _ _); try done.
    by rewrite genre_search_later. }
  destruct (rmatch true (re_pattern genre_re) (MState 0 s ∅) Some) as [y|];
    cbn in Hm |- *.
  - destruct s as [|c0 rest]; [done|]. repeat case_match; simplify_eq; done.
  - destruct s as [|c0 rest]; [done|]. repeat case_match; simplify_eq; done.
Qed.

(** X13: on a non-empty title, processYoutubeVideoTitle hands the primary
    splitter the title without its leading genre tag, and returns the
    splitter's answer whenever that has a non-null artist or track; a fault
    of the splitter propagates, and a splitter that returns no object makes
    the call throw a TypeError. *)
Theorem processYoutubeVideoTitle_delegates (splitArtistTrack : splitter)
    (s : jsstring) :
  s ≠ [] →
  (∀ p, splitArtistTrack (strip_genre s) = Ok (Some p) →
        artist p ≠ JNull ∨ track p ≠ JNull →
        processYoutubeVideoTitle splitArtistTrack (JStr s) = Ok p)
  ∧ (∀ e, splitArtistTrack (strip_genre s) = Throw e →
          processYoutubeVideoTitle splitArtistTrack (JStr s) = Throw e)
  ∧ (splitArtistTrack (strip_genre s) = Ok None →
     processYoutubeVideoTitle splitArtistTrack (JStr s) = Throw TypeError).
Proof.
  intros Hs. unfold processYoutubeVideoTitle.
  assert (toBoolean (JStr s) = true) as -> by (by destruct s).
  cbn [negb]. rewrite genre_replace. split; [|split].
  - intros [a t] -> Hp. cbn [artist track] in Hp.
    assert (strict_eq a JNull && strict_eq t JNull = false) as ->; [|done].
    apply andb_false_iff. destruct Hp as [Hp|Hp]; [left|right];
      apply not_true_is_false; by rewrite FilterFacts.strict_eq_spec.
  - by intros e ->.
  - by intros ->.
Qed.

Lemma processYoutubeVideoTitle_delegates_witness :
  processYoutubeVideoTitle echo_split (JStr (str "[Pop] - Some Artist - Some Track"))
  = Ok (Parsed JNull (JStr (str "Some Artist - Some Track"))).
Proof.
  apply (proj1 (processYoutubeVideoTitle_delegates echo_split
                  (str "[Pop] - Some Artist - Some Track") ltac:(discriminate))).
  - reflexivity.
  - right. discriminate.
Defined.

End ConnectorFacts.

(** ** Notifications *)

Module NotificationsFacts.
Import Notifications NotificationsSpec.

Lemma minutes_digits (m : nat) :
  (m < 60)%nat →
  (if (m <? 10)%nat then str "0" ++ number_to_string m else number_to_string m)
  = [48 + N.of_nat (m / 10); 48 + N.of_nat (m mod 10)].
Proof.
  intros Hm. do 60 (destruct m as [|m]; [reflexivity|]). lia.
Qed.

Lemma getCurrentTime_clock (h m : nat) :
  (h < 24)%nat → (m < 60)%nat → getCurrentTime h m = clock_string h m.
Proof.
  intros Hh Hm. unfold getCurrentTime, clock_string.
  rewrite (minutes_digits m Hm).
  generalize (48 + N.of_nat (m / 10)) (48 + N.of_nat (m mod 10)). intros a b.
  do 24 (destruct h as [|h]; [reflexivity|]). lia.
Qed.

Lemma clock_string_inj (h m h' m' : nat) :
  (h < 24)%nat → (m < 60)%nat → (h' < 24)%nat → (m' < 60)%nat →
  clock_string h m = clock_string h' m' → h = h' ∧ m = m'.
Proof.
  intros Hh Hm Hh' Hm' Heq.
  assert (48 + N.of_nat (m / 10) = 48 + N.of_nat (m' / 10)
          ∧ 48 + N.of_nat (m mod 10) = 48 + N.of_nat (m' mod 10) ∧ h = h')
    as (Ha & Hb & ->).
  { unfold clock_string in Heq. revert Heq.
    generalize (48 + N.of_nat (m / 10)) (48 + N.of_nat (m mod 10))
      (48 + N.of_nat (m' / 10)) (48 + N.of_nat (m' mod 10)). intros a b a' b'.
    do 24 (destruct h as [|h];
      [do 24 (destruct h' as [|h'];
         [vm_compute; intros Heq; try discriminate Heq;
          injection Heq as Ha Hb; by subst|]); lia|]).
    lia. }
  split; [done|]. apply N.add_cancel_l, Nat2N.inj in Ha, Hb.
  rewrite (Nat.div_mod_eq m 10), (Nat.div_mod_eq m' 10). by rewrite Ha, Hb.
Qed.

(** X14: for hours below 24 and minutes below 60, getCurrentTime gives the
    hour of the twelve-hour clock without a leading zero (12 for hour 0 and
    hour 12), a colon, the minutes as two digits, and am or pm; two different
    times of a day give two different strings. *)
Theorem getCurrentTime_spec (h m h' m' : nat) :
  (h < 24)%nat → (m < 60)%nat → (h' < 24)%nat → (m' < 60)%nat →
  getCurrentTime h m = clock_string h m
  ∧ (getCurrentTime h m = getCurrentTime h' m' → h = h' ∧ m = m').
Proof.
  intros Hh Hm Hh' Hm'. split; [by apply getCurrentTime_clock|].
  rewrite !getCurrentTime_clock by done. by apply clock_string_inj.
Qed.

Lemma getCurrentTime_spec_witness :
  getCurrentTime 0 5 = str "12:05am" ∧ getCurrentTime 23 59 = str "11:59pm".
Proof.
  split.
  - apply (getCurrentTime_spec 0 5 0 5); lia.
  - apply (getCurrentTime_spec 23 59 0 0); lia.
Defined.

Lemma apply_defaults_lookup options key :
  apply_defaults options !! key
  = if decide (key = "type") then
      if toBoolean (get_option options "type") then options !! "type"
      else Some (JStr (str "basic"))
    else if decide (key = "iconUrl") then
      if toBoolean (get_option options "iconUrl") then options !! "iconUrl"
      else Some (JStr (str "icons/icon128.png"))
    else options !! key.
Proof.
  unfold apply_defaults. cbn [foldl DEFAULT_OPTIONS_VALUES].
  assert (∀ o : gmap string jsval,
            get_option (if toBoolean (get_option o "type") then o
                        else <["type" := JStr (str "basic")]> o) "iconUrl"
            = get_option o "iconUrl") as Hicon.
  { intros o. destruct (toBoolean (get_option o "type")); [done|].
    unfold get_option. by rewrite lookup_insert_ne. }
  rewrite Hicon.
  destruct (toBoolean (get_option options "type")) eqn:Et,
    (toBoolean (get_option options "iconUrl")) eqn:Ei;
    repeat case_decide; simplify_map_eq; done.
Qed.

Lemma showNotification_listeners (env : chrome)
    (clickListeners : gmap jsstring handler) (options : gmap string jsval)
    (onClicked : handler) :
  match sh_promise (showNotification env clickListeners options onClicked) with
  | Resolved notificationId =>
      sh_listeners (showNotification env clickListeners options onClicked)
      = if handler_truthy onClicked
        then <[notificationId := onClicked]> clickListeners
        else clickListeners
  | _ => sh_listeners (showNotification env clickListeners options onClicked)
         = clickListeners
  end.
Proof.
  unfold showNotification. destruct (negb (isAvailable env)); [done|].
  destruct (permission_answer env); [|done]. destruct (negb _); [done|].
  by destruct (create env).
Qed.

(** X15: the promise of showNotification resolves, with the id the browser
    gives, exactly when the notifications API is available, the permission
    level is granted and the creation calls back. When it resolves, the
    notification was created with the options as the call left them and the
    click listener, if truthy, is registered under that id; when it is
    rejected nothing was created and the listeners are as before; when the
    API is unavailable the promise is rejected with undefined and the options
    are untouched. *)
Theorem showNotification_promise (env : chrome)
    (clickListeners : gmap jsstring handler) (options : gmap string jsval)
    (onClicked : handler) :
  let r := showNotification env clickListeners options onClicked in
  (∀ notificationId,
     sh_promise r = Resolved notificationId
     ↔ isAvailable env = true
       ∧ permission_answer env = Some (str "granted")
       ∧ create env = CreateAnswers notificationId)
  ∧ match sh_promise r with
    | Resolved notificationId =>
        sh_created r = Some (sh_options r)
        ∧ sh_listeners r
          = if handler_truthy onClicked
            then <[notificationId := onClicked]> clickListeners
            else clickListeners
    | Rejected _ => sh_created r = None ∧ sh_listeners r = clickListeners
    | Pending => sh_listeners r = clickListeners
    end
  ∧ (isAvailable env = false →
     sh_promise r = Rejected JUndefined ∧ sh_options r = options).
Proof.
  unfold showNotification, isAvailable.
  destruct (notifications_available env); cbn [negb].
  2: { cbn. split; [|done]. intros id. split; [done|]. by intros (? & _). }
  destruct (permission_answer env) as [level|].
  2: { cbn. split; [|done]. intros id. split; [done|]. by intros (_ & ? & _). }
  destruct (decide (level = str "granted")) as [->|Hlevel].
  2: { rewrite bool_decide_eq_false_2 by done. cbn. split; [|done].
       intros id. split; [done|]. intros (_ & [= ?] & _); done. }
  rewrite bool_decide_eq_true_2 by done. cbn [negb].
  destruct (create env) as [e|id|]; cbn.
  - split; [|done]. intros id. split; [done|]. by intros (_ & _ & ?).
  - split; [|done]. intros id'. split; [by intros [= ->]|by intros (_ & _ & [= ->])].
  - split; [|done]. intros id. split; [done|]. by intros (_ & _ & ?).
Qed.

(** X16: when the API is available, showNotification leaves the options
    with a truthy type and iconUrl; every truthy value given is kept, keys
    other than type, iconUrl and isClickable are untouched, and isClickable
    is set to true exactly when the click handler is a function. *)
Theorem showNotification_options (env : chrome)
    (clickListeners : gmap jsstring handler) (options : gmap string jsval)
    (onClicked : handler) :
  isAvailable env = true →
  let o := sh_options (showNotification env clickListeners options onClicked) in
  toBoolean (get_option o "type") = true
  ∧ toBoolean (get_option o "iconUrl") = true
  ∧ (∀ key, key ≠ "isClickable" → toBoolean (get_option options key) = true →
            o !! key = options !! key)
  ∧ (∀ key, key ≠ "isClickable" → key ≠ "type" → key ≠ "iconUrl" →
            o !! key = options !! key)
  ∧ o !! "isClickable"
    = if is_function onClicked then Some (JBool true)
      else options !! "isClickable".
Proof.
  intros Hav. unfold showNotification. rewrite Hav. cbn [negb].
  set (o1 := if is_function onClicked then <["isClickable" := JBool true]> options
             else options).
  assert (sh_options
            match permission_answer env with
            | Some permissionLevel =>
                if negb (bool_decide (permissionLevel = str "granted"))
                then Shown (Rejected JUndefined) (apply_defaults o1) None clickListeners
                else
                  match create env with
                  | CreateThrows e =>
                      Shown (Rejected e) (apply_defaults o1) None clickListeners
                  | CreateAnswers notificationId =>
                      Shown (Resolved notificationId) (apply_defaults o1)
                        (Some (apply_defaults o1))
                        (if handler_truthy onClicked
                         then addOnClickedListener clickListeners notificationId
                                onClicked
                         else clickListeners)
                  | CreateSilent =>
                      Shown Pending (apply_defaults o1) (Some (apply_defaults o1))
                        clickListeners
                  end
            | None => Shown Pending (apply_defaults o1) None clickListeners
            end = apply_defaults o1) as ->.
  { destruct (permission_answer env); [|done].
    destruct (negb _); [done|]. by destruct (create env). }
  assert (∀ key, key ≠ "isClickable" → o1 !! key = options !! key) as Ho1.
  { intros key Hkey. unfold o1. destruct (is_function onClicked); [|done].
    by rewrite lookup_insert_ne. }
  assert (∀ key, key ≠ "isClickable" → get_option o1 key = get_option options key)
    as Hg1 by (intros key Hkey; unfold get_option; by rewrite Ho1).
  cbn zeta. unfold get_option at 1 2. rewrite !apply_defaults_lookup.
  repeat (case_decide; try done). rewrite !Hg1 by done.
  split; [|split; [|split; [|split]]].
  - destruct (toBoolean (get_option options "type")) eqn:E; [|done].
    rewrite Ho1 by done. exact E.
  - destruct (toBoolean (get_option options "iconUrl")) eqn:E; [|done].
    rewrite Ho1 by done. exact E.
  - intros key Hkey Ht. rewrite apply_defaults_lookup, !Hg1 by done.
    repeat case_decide; subst; rewrite ?Ht, ?Ho1; done.
  - intros key Hk1 Hk2 Hk3. rewrite apply_defaults_lookup.
    repeat case_decide; try done. by apply Ho1.
  - unfold o1. destruct (is_function onClicked); [|done]. by rewrite lookup_insert_eq.
Qed.

Lemma showNotification_options_witness :
  toBoolean
    (get_option
       (sh_options (showNotification (granting (str "n1")) ∅
                      (playing_options 9 5 sample_song) (HVal JNull)))
       "iconUrl") = true.
Proof.
  apply (showNotification_options (granting (str "n1")) ∅
           (playing_options 9 5 sample_song) (HVal JNull)).
  reflexivity.
Defined.

(** X17: for ids that are not property names of Object.prototype: a click
    on a notification calls the function registered for it with the id; a
    second registration replaces the first; after the notification is closed
    a click does nothing; registering or closing one id does not affect the
    clicks on another; closing an id without a listener changes nothing. *)
Theorem click_listener_lifecycle (clickListeners : gmap jsstring handler)
    (id : jsstring) :
  inherited id = false →
  (∀ f, onClicked (addOnClickedListener clickListeners id (HFun f)) id
        = Ok (Some (f, id)))
  ∧ (∀ h h', addOnClickedListener (addOnClickedListener clickListeners id h) id h'
             = addOnClickedListener clickListeners id h')
  ∧ onClicked (onClosed clickListeners id) id = Ok None
  ∧ (∀ id' h, inherited id' = false → id ≠ id' →
       onClicked (addOnClickedListener clickListeners id h) id'
       = onClicked clickListeners id'
       ∧ onClicked (onClosed clickListeners id) id' = onClicked clickListeners id')
  ∧ (clickListeners !! id = None → onClosed clickListeners id = clickListeners).
Proof.
  intros _.
  unfold onClicked, onClosed, removeOnClickedListener, addOnClickedListener.
  split; [|split; [|split; [|split]]].
  - intros f. by rewrite lookup_insert_eq.
  - intros h h'. apply insert_insert_eq.
  - destruct (clickListeners !! id) as [h|] eqn:E.
    + destruct (handler_truthy h) eqn:Eh; [by rewrite lookup_delete_eq|].
      by rewrite E, Eh.
    + by rewrite E.
  - intros id' h _ Hne. split; [by rewrite lookup_insert_ne|].
    destruct (clickListeners !! id) as [h0|]; [|done].
    destruct (handler_truthy h0); [|done]. by rewrite lookup_delete_ne.
  - by intros ->.
Qed.

Lemma click_listener_lifecycle_witness :
  onClicked (addOnClickedListener ∅ (str "n1") (HFun (External 0))) (str "n1")
  = Ok (Some (External 0, str "n1"))
  ∧ onClicked (onClosed (addOnClickedListener ∅ (str "n1") (HFun (External 0)))
                 (str "n1")) (str "n1")
    = Ok None.
Proof.
  split.
  - apply (click_listener_lifecycle ∅ (str "n1")). vm_compute. reflexivity.
  - apply (click_listener_lifecycle
             (addOnClickedListener ∅ (str "n1") (HFun (External 0))) (str "n1")).
    vm_compute. reflexivity.
Defined.

Lemma showNotification_created env clickListeners options onClicked o :
  sh_created (showNotification env clickListeners options onClicked) = Some o →
  o = apply_defaults
        (if is_function onClicked then <["isClickable" := JBool true]> options
         else options).
Proof.
  unfold showNotification. destruct (negb (isAvailable env)); [done|].
  destruct (permission_answer env); [|done]. destruct (negb _); [done|].
  destruct (create env); cbn; congruence.
Qed.

(** X18: showPlaying does nothing unless localStorage.useNotifications is
    the string 1. When it is, the click listeners stay as they are, the
    follow-up effects happen exactly when the promise resolves, and a created
    notification has type basic, the track art as icon or the default cover
    when the art is missing or empty, the track as title, the text by
    followed by the artist as message, and is not clickable. *)
Theorem showPlaying_spec (env : chrome) (clickListeners : gmap jsstring handler)
    (useNotifications : jsval) (hours minutes : nat) (s : song) :
  (useNotifications ≠ JStr (str "1") →
   showPlaying env clickListeners useNotifications hours minutes s = (None, []))
  ∧ (useNotifications = JStr (str "1") →
     ∃ r effects,
       showPlaying env clickListeners useNotifications hours minutes s
       = (Some r, effects)
       ∧ sh_listeners r = clickListeners
       ∧ (effects ≠ [] ↔ ∃ id, sh_promise r = Resolved id)
       ∧ ∀ created, sh_created r = Some created →
           created !! "type" = Some (JStr (str "basic"))
           ∧ created !! "iconUrl"
             = Some (match getTrackArt s with
                     | Some (c :: art) => JStr (c :: art)
                     | _ => JStr (str "icons/default_cover_art.png")
                     end)
           ∧ created !! "title" = Some (text_value (getTrack s))
           ∧ created !! "message"
             = Some (JStr (str "by " ++ text_string (getArtist s)))
           ∧ created !! "isClickable" = None).
Proof.
  unfold showPlaying, isAllowed. split.
  - intros Hne. destruct (strict_eq useNotifications (JStr (str "1"))) eqn:E; [|done].
    apply FilterFacts.strict_eq_spec in E; done.
  - intros ->. cbn [strict_eq]. rewrite bool_decide_eq_true_2 by done. cbn [negb].
    eexists _, _. split; [reflexivity|].
    pose proof (showNotification_listeners env clickListeners
                  (playing_options hours minutes s) (HVal JNull)) as Hp.
    cbn [handler_truthy toBoolean] in Hp.
    split; [|split].
    + by destruct (sh_promise _).
    + destruct (sh_promise _); split; try done; eauto; by intros [? [=]].
    + intros created Hc. apply showNotification_created in Hc. subst created.
      cbn [is_function]. rewrite !apply_defaults_lookup.
      repeat (case_decide; try done).
      unfold get_option, playing_options. simplify_map_eq.
      assert (toBoolean
                (if toBoolean (text_value (getTrackArt s))
                 then text_value (getTrackArt s)
                 else JStr (str "icons/default_cover_art.png")) = true) as ->.
      { by destruct (getTrackArt s) as [[|??]|]. }
      repeat split; try done. by destruct (getTrackArt s) as [[|??]|].
Qed.

Lemma showPlaying_spec_witness :
  showPlaying no_api ∅ (JStr (str "0")) 9 5 sample_song = (None, [])
  ∧ ∃ r effects,
      showPlaying (granting (str "n1")) ∅ (JStr (str "1")) 9 5 sample_song
      = (Some r, effects)
      ∧ sh_listeners r = ∅.
Proof.
  split.
  - apply (proj1 (showPlaying_spec no_api ∅ (JStr (str "0")) 9 5 sample_song)).
    discriminate.
  - destruct (proj2 (showPlaying_spec (granting (str "n1")) ∅ (JStr (str "1"))
                       9 5 sample_song) eq_refl) as (r & effects & H & Hl & _).
    by exists r, effects.
Defined.

(** X19: showAuthenticate with an address: when the notification is shown,
    a click on it opens the address and nothing was opened before the click;
    when it cannot be shown the address is opened at once and no listener is
    registered; while the browser has not answered nothing happens. Without
    an address it is showSignInError, whose notification opens the Last.fm
    status page on a click. *)
Theorem authentication_reaches_user (env : chrome)
    (clickListeners : gmap jsstring handler) (authUrl : jsstring) :
  match sh_promise (showAuthenticate env clickListeners (Some authUrl)).1 with
  | Resolved id =>
      inherited id = false →
      onClicked (sh_listeners (showAuthenticate env clickListeners (Some authUrl)).1) id
      = Ok (Some (OpenAuth authUrl, id))
      ∧ WindowOpen authUrl ∈ run_callback (OpenAuth authUrl)
      ∧ WindowOpen authUrl ∉ (showAuthenticate env clickListeners (Some authUrl)).2
  | Rejected _ =>
      WindowOpen authUrl ∈ (showAuthenticate env clickListeners (Some authUrl)).2
      ∧ sh_listeners (showAuthenticate env clickListeners (Some authUrl)).1
        = clickListeners
  | Pending => (showAuthenticate env clickListeners (Some authUrl)).2 = []
  end
  ∧ showAuthenticate env clickListeners None = showSignInError env clickListeners
  ∧ ∀ id, sh_promise (showSignInError env clickListeners).1 = Resolved id →
      inherited id = false →
      onClicked (sh_listeners (showSignInError env clickListeners).1) id
      = Ok (Some (OpenStatusPage, id))
      ∧ run_callback OpenStatusPage = [TabsCreate (str "http://status.last.fm/")].
Proof.
  split; [|split; [done|]].
  - unfold showAuthenticate. cbn [fst snd].
    pose proof (showNotification_listeners env clickListeners
      (<["title" := JStr (str "Connect your Last.FM account")]>
         (<["message" := JStr (str "Click the notification or connect later in the extension options page")]> ∅))
      (HFun (OpenAuth authUrl))) as Hp.
    cbn [handler_truthy] in Hp.
    destruct (sh_promise _) as [|id|reason].
    + done.
    + rewrite Hp. intros _. split; [|split].
      * unfold onClicked. by rewrite lookup_insert_eq.
      * cbn [run_callback]. apply list_elem_of_In. cbn. tauto.
      * intros [=]%list_elem_of_singleton.
    + rewrite Hp. split; [|done]. apply list_elem_of_In. cbn. tauto.
  - intros i Hid _. split; [|done]. unfold showSignInError, showError in *.
    cbn [fst default from_option Datatypes.id] in *.
    pose proof (showNotification_listeners env clickListeners
      (<["title" := JStr (str "Web scrobbler error")]>
         (<["message" := JStr SIGN_IN_ERROR_MESSAGE]> ∅))
      (HFun OpenStatusPage)) as Hp.
    rewrite Hid in Hp. rewrite Hp.
    cbn [handler_truthy]. unfold onClicked. by rewrite lookup_insert_eq.
Qed.

Lemma authentication_reaches_user_witness :
  onClicked
    (sh_listeners
       (showAuthenticate (granting (str "n1")) ∅ (Some (str "http://auth"))).1)
    (str "n1")
  = Ok (Some (OpenAuth (str "http://auth"), str "n1")).
Proof.
  apply (proj1 (authentication_reaches_user (granting (str "n1")) ∅
                  (str "http://auth"))).
  vm_compute. reflexivity.
Defined.

End NotificationsFacts.
